(** * BASP instance: a shallow embedding of [libcaf_io/src/instance.cpp]

    The development covers the data the instance works on, the routing
    table it owns, the frame writer [instance::write] with its specialised
    writers and outbound [dispatch], the stream and the datagram handler
    [instance::handle], heartbeats, node shutdown and the published-actors
    map, and the type list of [cppa/util/type_list.hpp].  Effects are
    explicit: every operation is a function on the instance state that
    also appends to a log of the calls made to the callee, to the hooks
    and to the broker; a failed [CAF_ASSERT] aborts the operation. *)

From Stdlib Require Import Strings.Byte.
From stdpp Require Import gmap strings list fin_maps.

(** ** Data model *)

(** A node identity is an opaque token with one sentinel, [none]. *)
Inductive node_id :=
  | none
  | node (n : N).

Global Instance node_id_eq_dec : EqDecision node_id.
Proof. solve_decision. Defined.

Definition node_id_to_option (x : node_id) : option N :=
  match x with none => None | node n => Some n end.

Definition node_id_of_option (o : option N) : node_id :=
  match o with None => none | Some n => node n end.

Global Instance node_id_countable : Countable node_id.
Proof.
  apply (inj_countable' node_id_to_option node_id_of_option).
  by intros [].
Defined.

(** Channel handles come from the broker.  A stream channel is named by a
    [connection_handle]; the routing table keys its rows by the variant
    [endpoint_handle], which also covers datagram channels. *)
Definition connection_handle := N.

Inductive endpoint_handle :=
  | conn_hdl (id : connection_handle)
  | dgram_hdl (id : N).

Global Instance endpoint_handle_eq_dec : EqDecision endpoint_handle.
Proof. solve_decision. Defined.

Definition endpoint_handle_to_sum (h : endpoint_handle) : N + N :=
  match h with conn_hdl i => inl i | dgram_hdl i => inr i end.

Definition endpoint_handle_of_sum (s : N + N) : endpoint_handle :=
  match s with inl i => conn_hdl i | inr i => dgram_hdl i end.

Global Instance endpoint_handle_countable : Countable endpoint_handle.
Proof.
  apply (inj_countable' endpoint_handle_to_sum endpoint_handle_of_sum).
  by intros [].
Defined.

Definition actor_id := N.
Definition invalid_actor_id : actor_id := 0%N.

Definition atom_value := N.

(** [message_id] wraps an integer; [integer_value] and
    [from_integer_value] are the two directions of the wrapper. *)
Record message_id := from_integer_value { integer_value : N }.

(** User messages and errors are opaque to the instance. *)
Inductive message := Message (content : list N).
Inductive error := Error (code : N).

(** An actor is known by its node and its id; a [strong_actor_ptr] and an
    [actor_addr] may be null. *)
Record actor := Actor { actor_node : node_id; actor_aid : actor_id }.

Global Instance actor_eq_dec : EqDecision actor.
Proof. solve_decision. Defined.

Definition strong_actor_ptr := option actor.
Definition actor_addr := option actor.

Definition buffer_type := list byte.

(** Modelled from the spec: the enum [message_type] of
    [basp/message_type.hpp], with the operation tags of the external
    interface. *)
Inductive message_type :=
  | server_handshake
  | client_handshake
  | dispatch_message
  | announce_proxy
  | kill_proxy
  | heartbeat
  | udp_server_handshake
  | udp_client_handshake.

Global Instance message_type_eq_dec : EqDecision message_type.
Proof. solve_decision. Defined.

(** Modelled from the spec: the frame header of [basp/header.hpp], with
    the fields the source reads and writes.  [flags] is an 8-bit field,
    [payload_len] a 32-bit and [operation_data] a 64-bit unsigned
    integer. *)
Record header := Header {
  operation : message_type;
  flags : N;
  payload_len : N;
  operation_data : N;
  source_node : node_id;
  dest_node : node_id;
  source_actor : actor_id;
  dest_actor : actor_id
}.

Definition set_payload_len (hdr : header) (len : N) : header :=
  Header (operation hdr) (flags hdr) len (operation_data hdr)
         (source_node hdr) (dest_node hdr) (source_actor hdr) (dest_actor hdr).

(** Modelled from the spec: [header::named_receiver_flag] is bit 0 of
    [flags], and [hdr.has(flag)] tests it ([basp/header.hpp]). *)
Definition named_receiver_flag : N := 1%N.

Definition has (hdr : header) (flag : N) : bool :=
  negb (N.land (flags hdr) flag =? 0)%N.

(** Modelled from the spec: the classification predicates of
    [basp/header.hpp]. *)
Definition is_handshake (hdr : header) : bool :=
  match operation hdr with
  | server_handshake | client_handshake
  | udp_server_handshake | udp_client_handshake => true
  | _ => false
  end.

Definition is_heartbeat (hdr : header) : bool :=
  match operation hdr with
  | heartbeat => true
  | _ => false
  end.

Definition uint32_max : N := 4294967295%N.

(** [static_cast<uint32_t>] of a [size_t]. *)
Definition to_uint32 (n : N) : N := (n mod 2 ^ 32)%N.

(** ** Serializers and deserializers

    The binary serializer of the actor library is not part of this file.
    A serializer run is described by what it emits: the bytes it wrote
    into its sink and whether it reported an error. *)
Record ser_out := SerOut { ser_bytes : buffer_type; ser_err : bool }.

(** A [payload_writer] is a callback handed a sink. *)
Definition payload_writer := ser_out.

(** A [binary_serializer] over a byte vector appends at its end. *)
Definition vector_sink (buf : buffer_type) (out : ser_out) : buffer_type :=
  buf ++ ser_bytes out.

(** A [stream_serializer<charbuf>] over the [cap] bytes at [pos] overwrites
    them in place and cannot grow the region. *)
Definition charbuf_sink (buf : buffer_type) (pos cap : nat) (out : ser_out)
  : buffer_type :=
  let written := take cap (ser_bytes out) in
  take pos buf ++ written ++ drop (pos + length written) buf.

(** What the instance takes from its surroundings: constants of the
    protocol, the configuration, and the codecs of the values it frames.
    A deserializer consumes a prefix of its input and returns the rest;
    [None] is a deserialization error. *)
Record env := Env {
  header_size : nat;
  version : N;
  middleman_app_identifier : string;
  (** contents of the uninitialised [placeholder] array *)
  placeholder_byte : nat -> byte;
  valid : header -> bool;
  (** [bd(hdr)] overwrites [hdr]; the flag is the error *)
  bd_header : buffer_type -> header -> header * bool;
  bs_header : header -> ser_out;
  bd_string : buffer_type -> option (string * buffer_type);
  bd_aid_sigs : buffer_type -> option (actor_id * gset string * buffer_type);
  bd_atom : buffer_type -> option (atom_value * buffer_type);
  bd_stack_msg :
    buffer_type -> option (list strong_actor_ptr * message * buffer_type);
  bd_error : buffer_type -> option (error * buffer_type);
  sink_string : string -> ser_out;
  sink_aid_sigs : actor_id -> gset string -> ser_out;
  sink_stack_msg : list strong_actor_ptr -> message -> ser_out;
  sink_error : error -> ser_out
}.

(** ** Routing table

    [basp/routing_table.hpp] is not part of this file; the table is
    modelled after the routing-table contract of the specification. *)

(** Modelled from the spec: an endpoint, the result of a routing lookup.
    It names the handle whose write buffer it refers to ([wr_buf]) and the
    next hop. *)
Record endpoint := Endpoint { hdl : endpoint_handle; next_hop : node_id }.

(** Modelled from the spec: the two direct mappings, inverse to each other,
    and the indirect routes, from a destination to the set of its next
    hops. *)
Record routing_table := RoutingTable {
  direct_by_hdl_ : gmap endpoint_handle node_id;
  direct_by_nid_ : gmap node_id endpoint_handle;
  indirect_ : gmap node_id (gset node_id)
}.

Definition empty_table : routing_table := RoutingTable ∅ ∅ ∅.

Module routing.

(** Modelled from the spec: [lookup_hdl(n)], the direct handle only, no
    indirection. *)
Definition lookup_hdl (t : routing_table) (n : node_id)
  : option endpoint_handle :=
  direct_by_nid_ t !! n.

(** Modelled from the spec: [lookup_node(h)], the reverse lookup, [none]
    for an unknown handle. *)
Definition lookup_node (t : routing_table) (h : endpoint_handle) : node_id :=
  default none (direct_by_hdl_ t !! h).

Definition via (t : routing_table) (hop : node_id) : option endpoint :=
  h ← direct_by_nid_ t !! hop; Some (Endpoint h hop).

(** Modelled from the spec: [lookup(n)] returns a direct endpoint if one
    exists; else, if indirect, the endpoint of the next hop; nothing if
    the node is unreachable. *)
Definition lookup (t : routing_table) (n : node_id) : option endpoint :=
  match direct_by_nid_ t !! n with
  | Some h => Some (Endpoint h n)
  | None =>
      match indirect_ t !! n with
      | Some hops => head (omap (via t) (elements hops))
      | None => None
      end
  end.

(** Modelled from the spec: [add(h, n)] inserts a direct route; if either
    [h] or [n] is already present, the existing entry for that key is
    replaced and the other side is updated to keep the two maps inverse. *)
Definition add (t : routing_table) (h : endpoint_handle) (n : node_id)
  : routing_table :=
  let by_hdl :=
    match direct_by_nid_ t !! n with
    | Some h' => delete h' (direct_by_hdl_ t)
    | None => direct_by_hdl_ t
    end in
  let by_nid :=
    match direct_by_hdl_ t !! h with
    | Some n' => delete n' (direct_by_nid_ t)
    | None => direct_by_nid_ t
    end in
  RoutingTable (<[h:=n]> by_hdl) (<[n:=h]> by_nid) (indirect_ t).

(** The destinations that lose an indirect entry when [hop] goes away, and
    the indirect routes that remain. *)
Definition routed_via (hop : node_id) (ind : gmap node_id (gset node_id))
  : list node_id :=
  (map_to_list (filter (λ kv, hop ∈ kv.2) ind)).*1.

Definition drop_hop (hop : node_id) (hops : gset node_id)
  : option (gset node_id) :=
  let rest := hops ∖ {[hop]} in
  if decide (rest = ∅) then None else Some rest.

Definition erase_via (hop : node_id) (ind : gmap node_id (gset node_id))
  : gmap node_id (gset node_id) :=
  omap (drop_hop hop) ind.

(** Modelled from the spec: [erase(h, cb)] removes the node bound to [h]
    and invokes [cb] for it; it also removes any indirect entries whose
    next hop is that node, invoking [cb] for each such node as well.  The
    result is the new table and the nodes [cb] is called with, in call
    order. *)
Definition erase_hdl (t : routing_table) (h : endpoint_handle)
  : routing_table * list node_id :=
  match direct_by_hdl_ t !! h with
  | None => (t, [])
  | Some n =>
      (RoutingTable (delete h (direct_by_hdl_ t))
                    (delete n (direct_by_nid_ t))
                    (erase_via n (indirect_ t)),
       n :: routed_via n (indirect_ t))
  end.

(** Modelled from the spec: [erase(n, cb)], symmetric by node identity. *)
Definition erase_nid (t : routing_table) (n : node_id)
  : routing_table * list node_id :=
  match direct_by_nid_ t !! n with
  | None => (t, [])
  | Some h =>
      (RoutingTable (delete h (direct_by_hdl_ t))
                    (delete n (direct_by_nid_ t))
                    (erase_via n (indirect_ t)),
       n :: routed_via n (indirect_ t))
  end.

(** Routing consistency: the two direct maps are inverse to each other. *)
Definition consistent (t : routing_table) : Prop :=
  map_Forall (λ h n, direct_by_nid_ t !! n = Some h) (direct_by_hdl_ t)
  ∧ map_Forall (λ n h, direct_by_hdl_ t !! h = Some n) (direct_by_nid_ t).

Global Instance consistent_dec t : Decision (consistent t).
Proof. unfold consistent. apply _. Defined.

End routing.

(** ** Instance state and effects *)

(** Modelled from the spec: the states of a stream channel
    ([basp/connection_state.hpp]). *)
Inductive connection_state :=
  | await_header
  | await_payload
  | close_connection.

Record new_data_msg := NewDataMsg {
  handle_of : connection_handle;
  buf : buffer_type
}.

(** Calls into the runtime. *)
Module callee.
Inductive call :=
  | purge_state (nid : node_id)
  | finalize_handshake (nid : node_id) (aid : actor_id) (sigs : gset string)
  | learned_new_node_directly (nid : node_id)
  | deliver (src_nid : node_id) (src_aid dest_aid : actor_id)
      (mid : message_id) (stack : list strong_actor_ptr) (msg : message)
  | deliver_named (src_nid : node_id) (src_aid : actor_id)
      (receiver_name : atom_value)
      (mid : message_id) (stack : list strong_actor_ptr) (msg : message)
  | proxy_announced (nid : node_id) (aid : actor_id)
  | kill_proxy (nid : node_id) (aid : actor_id) (rsn : error)
  | handle_heartbeat (nid : node_id).
End callee.

(** Observer events. *)
Module hook.
Inductive event :=
  | message_forwarded (hdr : header) (payload : option buffer_type)
  | message_forwarding_failed (hdr : header) (payload : option buffer_type)
  | message_sent (sender : strong_actor_ptr) (hop : node_id)
      (receiver : strong_actor_ptr) (mid : message_id) (msg : message)
  | message_sending_failed (sender receiver : strong_actor_ptr)
      (mid : message_id) (msg : message)
  | actor_published (whom : strong_actor_ptr) (ifs : gset string) (port : N).
End hook.

(** What an operation does to the outside, in program order. *)
Inductive effect :=
  | Callee (c : callee.call)
  | Notify (e : hook.event)
  | Flush (h : endpoint_handle)
  (** a call of the caller's [removed_published_actor] callback *)
  | Removed (whom : strong_actor_ptr) (port : N).

Definition published_actor : Type := strong_actor_ptr * gset string.

(** The instance together with the write buffers its parent broker keeps
    per handle.  [published_actors_] lists the rows of the port map in
    iteration order. *)
Record instance := Instance {
  tbl_ : routing_table;
  this_node_ : node_id;
  published_actors_ : list (N * published_actor);
  wr_bufs : gmap endpoint_handle buffer_type;
  log : list effect
}.

Definition set_tbl (t : routing_table) (s : instance) : instance :=
  Instance t (this_node_ s) (published_actors_ s) (wr_bufs s) (log s).

Definition set_published (p : list (N * published_actor)) (s : instance)
  : instance :=
  Instance (tbl_ s) (this_node_ s) p (wr_bufs s) (log s).

Definition set_wr_buf (h : endpoint_handle) (b : buffer_type) (s : instance)
  : instance :=
  Instance (tbl_ s) (this_node_ s) (published_actors_ s)
           (<[h:=b]> (wr_bufs s)) (log s).

Definition add_log (es : list effect) (s : instance) : instance :=
  Instance (tbl_ s) (this_node_ s) (published_actors_ s) (wr_bufs s)
           (log s ++ es).

(** The write buffer behind [path->wr_buf]. *)
Definition wr_buf (s : instance) (h : endpoint_handle) : buffer_type :=
  default [] (wr_bufs s !! h).

(** Operations run on the instance state; [None] is a failed
    [CAF_ASSERT]. *)
Definition M (A : Type) : Type := instance → option (A * instance).

Global Instance M_ret : MRet M := λ A x s, Some (x, s).

Global Instance M_bind : MBind M := λ A B f m s,
  match m s with
  | Some (x, s') => f x s'
  | None => None
  end.

Definition get : M instance := λ s, Some (s, s).
Definition modify (f : instance → instance) : M unit := λ s, Some ((), f s).
Definition CAF_ASSERT (b : bool) : M unit :=
  λ s, if b then Some ((), s) else None.

Definition call (c : callee.call) : M unit := modify (add_log [Callee c]).
Definition notify (e : hook.event) : M unit := modify (add_log [Notify e]).

(** Run a buffer writer on the broker's write buffer of handle [h]. *)
Definition on_wr_buf (h : endpoint_handle)
    (f : buffer_type → option buffer_type) : M unit :=
  λ s, b ← f (wr_buf s h); Some ((), set_wr_buf h b s).

(** [tbl_.flush(path)] hands the endpoint's buffer to the broker. *)
Definition flush (path : endpoint) : M unit :=
  modify (add_log [Flush (hdl path)]).

(** ** Frame writer *)

Section frame_writer.
Context (E : env).

(** [char placeholder[basp::header_size]] *)
Definition placeholder : buffer_type :=
  map (placeholder_byte E) (seq 0 (header_size E)).

(** [instance::write(ctx, buf, hdr, pw)]: the buffer and the header
    after the call.  The serializer's error is only logged. *)
Definition write (buf : buffer_type) (hdr : header)
    (pw : option payload_writer) : option (buffer_type * header) :=
  match pw with
  | Some pw =>
      let pos := length buf in
      (* write payload first, header later *)
      let buf1 := buf ++ placeholder in
      let buf2 := vector_sink buf1 pw in
      let plen := N.of_nat (length buf2 - pos - header_size E) in
      if (plen <=? uint32_max)%N then
        let hdr' := set_payload_len hdr (to_uint32 plen) in
        Some (charbuf_sink buf2 pos (header_size E) (bs_header E hdr'), hdr')
      else None
  | None => Some (vector_sink buf (bs_header E hdr), hdr)
  end.

(** Two values written through one sink, stopping at the first error. *)
Definition ser_seq (a b : ser_out) : ser_out :=
  if ser_err a then a
  else SerOut (ser_bytes a ++ ser_bytes b) (ser_err b).

Fixpoint find_port (port : N) (pas : list (N * published_actor))
  : option published_actor :=
  match pas with
  | [] => None
  | (p, pa) :: rest => if decide (p = port) then Some pa else find_port port rest
  end.

Definition id_or_invalid (p : strong_actor_ptr) : actor_id :=
  match p with Some a => actor_aid a | None => invalid_actor_id end.

Definition handshake_writer (pa : option published_actor) : payload_writer :=
  ser_seq (sink_string E (middleman_app_identifier E))
    match pa with
    | Some pa => sink_aid_sigs E (id_or_invalid pa.1) pa.2
    | None => sink_aid_sigs E invalid_actor_id ∅
    end.

Definition published_id (pa : option published_actor) : actor_id :=
  match pa with
  | Some (Some a, _) => actor_aid a
  | _ => invalid_actor_id
  end.

Definition write_server_handshake (s : instance) (out_buf : buffer_type)
    (port : option N) : option buffer_type :=
  let pa := p ← port; find_port p (published_actors_ s) in
  let hdr := Header server_handshake 0 0 (version E) (this_node_ s) none
                    (published_id pa) invalid_actor_id in
  fst <$> write out_buf hdr (Some (handshake_writer pa)).

Definition write_client_handshake (s : instance) (buf : buffer_type)
    (remote_side : node_id) : option buffer_type :=
  let writer := sink_string E (middleman_app_identifier E) in
  let hdr := Header client_handshake 0 0 0 (this_node_ s) remote_side
                    invalid_actor_id invalid_actor_id in
  fst <$> write buf hdr (Some writer).

Definition write_udp_client_handshake (s : instance) (buf : buffer_type)
  : option buffer_type :=
  let writer := sink_string E (middleman_app_identifier E) in
  let hdr := Header udp_client_handshake 0 0 (version E) (this_node_ s) none
                    invalid_actor_id invalid_actor_id in
  fst <$> write buf hdr (Some writer).

Definition write_udp_server_handshake (s : instance) (buf : buffer_type)
    (remote_side : node_id) (port : option N) : option buffer_type :=
  let pa := p ← port; find_port p (published_actors_ s) in
  let hdr := Header udp_server_handshake 0 0 (version E) (this_node_ s)
                    remote_side (published_id pa) invalid_actor_id in
  fst <$> write buf hdr (Some (handshake_writer pa)).

Definition write_announce_proxy (s : instance) (buf : buffer_type)
    (dest : node_id) (aid : actor_id) : option buffer_type :=
  let hdr := Header announce_proxy 0 0 0 (this_node_ s) dest
                    invalid_actor_id aid in
  fst <$> write buf hdr None.

Definition write_kill_proxy (s : instance) (buf : buffer_type)
    (dest : node_id) (aid : actor_id) (rsn : error) : option buffer_type :=
  let hdr := Header kill_proxy 0 0 0 (this_node_ s) dest
                    aid invalid_actor_id in
  fst <$> write buf hdr (Some (sink_error E rsn)).

Definition write_heartbeat (s : instance) (buf : buffer_type)
    (remote_side : node_id) : option buffer_type :=
  let hdr := Header heartbeat 0 0 0 (this_node_ s) remote_side
                    invalid_actor_id invalid_actor_id in
  fst <$> write buf hdr None.

(** [instance::write(ctx, r, hdr, writer)] on an endpoint. *)
Definition write_endpoint (r : endpoint) (hdr : header)
    (writer : option payload_writer) : M unit :=
  CAF_ASSERT (bool_decide (payload_len hdr = 0%N ∨ is_Some writer));;
  on_wr_buf (hdl r) (λ b, fst <$> write b hdr writer);;
  flush r.

(** [instance::dispatch] *)
Definition dispatch (sender : strong_actor_ptr)
    (forwarding_stack : list strong_actor_ptr) (receiver : strong_actor_ptr)
    (mid : message_id) (msg : message) : M bool :=
  s ← get;
  match receiver with
  | None => CAF_ASSERT false;; mret false
  | Some rcv =>
      CAF_ASSERT (bool_decide (this_node_ s ≠ actor_node rcv));;
      match routing.lookup (tbl_ s) (actor_node rcv) with
      | None =>
          notify (hook.message_sending_failed sender receiver mid msg);;
          mret false
      | Some path =>
          let writer := sink_stack_msg E forwarding_stack msg in
          let hdr :=
            Header dispatch_message 0 0 (integer_value mid)
                   (match sender with
                    | Some a => actor_node a
                    | None => this_node_ s
                    end)
                   (actor_node rcv)
                   (match sender with
                    | Some a => actor_aid a
                    | None => invalid_actor_id
                    end)
                   (actor_aid rcv) in
          on_wr_buf (hdl path) (λ b, fst <$> write b hdr (Some writer));;
          flush path;;
          notify (hook.message_sent sender (next_hop path) receiver mid msg);;
          mret true
      end
  end.

End frame_writer.

(** ** Stream handler *)

Section stream_handler.
Context (E : env).

(** The cleanup closure [err] of [handle]: erase the routes of the
    handle, purging the callee's state of every node removed. *)
Definition err (dm : new_data_msg) : M connection_state :=
  s ← get;
  let erased := routing.erase_hdl (tbl_ s) (conn_hdl (handle_of dm)) in
  modify (set_tbl erased.1);;
  modify (add_log (Callee ∘ callee.purge_state <$> erased.2));;
  mret close_connection.

(** The closure [payload_valid], returning the payload it vouches for. *)
Definition payload_valid (hdr : header) (payload : option buffer_type)
  : option buffer_type :=
  match payload with
  | Some p =>
      if bool_decide (N.of_nat (length p) = payload_len hdr)
      then Some p else None
  | None => None
  end.

Definition needs_forwarding (s : instance) (hdr : header) : bool :=
  negb (is_handshake hdr) && negb (is_heartbeat hdr)
  && bool_decide (dest_node hdr ≠ this_node_ s).

(** The forwarding branch.  Without a route the source only looks up the
    reverse path to word its log message. *)
Definition forward (dm : new_data_msg) (hdr : header)
    (payload : option buffer_type) : M connection_state :=
  s ← get;
  match routing.lookup (tbl_ s) (dest_node hdr) with
  | Some path =>
      let e := bs_header E hdr in
      on_wr_buf (hdl path) (λ b, Some (vector_sink b e));;
      if ser_err e then err dm
      else
        match payload with
        | Some p => on_wr_buf (hdl path) (λ b, Some (b ++ p))
        | None => mret ()
        end;;
        flush path;;
        notify (hook.message_forwarded hdr payload);;
        mret await_header
  | None =>
      notify (hook.message_forwarding_failed hdr payload);;
      mret await_header
  end.

Definition handle_server_handshake (dm : new_data_msg) (hdr : header)
    (payload : option buffer_type) : M connection_state :=
  match payload_valid hdr payload with
  | None => err dm
  | Some p =>
      match bd_string E p with
      | None => err dm
      | Some (remote_appid, rest) =>
          if bool_decide (remote_appid ≠ middleman_app_identifier E)
          then err dm
          else
            match bd_aid_sigs E rest with
            | None => err dm
            | Some (aid, sigs, _) =>
                s ← get;
                let src := source_node hdr in
                (* close self connection after handshake is done *)
                if bool_decide (src = this_node_ s) then
                  call (callee.finalize_handshake src aid sigs);;
                  err dm
                (* close this connection if we already have a direct one *)
                else if routing.lookup_hdl (tbl_ s) src is Some _ then
                  call (callee.finalize_handshake src aid sigs);;
                  err dm
                else
                  (* add direct route to this node *)
                  modify (set_tbl
                    (routing.add (tbl_ s) (conn_hdl (handle_of dm)) src));;
                  s' ← get;
                  match routing.lookup (tbl_ s') src with
                  | None => err dm
                  | Some path =>
                      on_wr_buf (hdl path)
                        (λ b, write_client_handshake E s' b src);;
                      call (callee.learned_new_node_directly src);;
                      call (callee.finalize_handshake src aid sigs);;
                      flush path;;
                      mret await_header
                  end
            end
      end
  end.

Definition handle_client_handshake (dm : new_data_msg) (hdr : header)
    (payload : option buffer_type) : M connection_state :=
  s ← get;
  let src := source_node hdr in
  if routing.lookup_hdl (tbl_ s) src is Some _ then
    (* received second client handshake *)
    mret await_header
  else
    match payload_valid hdr payload with
    | None => err dm
    | Some p =>
        match bd_string E p with
        | None => err dm
        | Some (remote_appid, _) =>
            if bool_decide (remote_appid ≠ middleman_app_identifier E)
            then err dm
            else
              (* add direct route to this node *)
              modify (set_tbl
                (routing.add (tbl_ s) (conn_hdl (handle_of dm)) src));;
              call (callee.learned_new_node_directly src);;
              mret await_header
        end
    end.

Definition handle_dispatch_message (dm : new_data_msg) (hdr : header)
    (payload : option buffer_type) : M connection_state :=
  match payload_valid hdr payload with
  | None => err dm
  | Some p =>
      let named := has hdr named_receiver_flag in
      match (if named then bd_atom E p else Some (0%N, p)) with
      | None => err dm
      | Some (receiver_name, rest) =>
          match bd_stack_msg E rest with
          | None => err dm
          | Some (forwarding_stack, msg, _) =>
              let mid := from_integer_value (operation_data hdr) in
              (if named then
                 call (callee.deliver_named (source_node hdr)
                         (source_actor hdr) receiver_name mid
                         forwarding_stack msg)
               else
                 call (callee.deliver (source_node hdr) (source_actor hdr)
                         (dest_actor hdr) mid forwarding_stack msg));;
              mret await_header
          end
      end
  end.

Definition handle_kill_proxy (dm : new_data_msg) (hdr : header)
    (payload : option buffer_type) : M connection_state :=
  match payload_valid hdr payload with
  | None => err dm
  | Some p =>
      match bd_error E p with
      | None => err dm
      | Some (fail_state, _) =>
          call (callee.kill_proxy (source_node hdr) (source_actor hdr)
                  fail_state);;
          mret await_header
      end
  end.

(** The part of [handle] after the phase check: the forwarding test,
    then the switch over [hdr.operation]. *)
Definition handle_frame (dm : new_data_msg) (hdr : header)
    (payload : option buffer_type) : M connection_state :=
  s ← get;
  if needs_forwarding s hdr then forward dm hdr payload
  else
    match operation hdr with
    | server_handshake => handle_server_handshake dm hdr payload
    | client_handshake => handle_client_handshake dm hdr payload
    | dispatch_message => handle_dispatch_message dm hdr payload
    | announce_proxy =>
        call (callee.proxy_announced (source_node hdr) (dest_actor hdr));;
        mret await_header
    | kill_proxy => handle_kill_proxy dm hdr payload
    | heartbeat =>
        call (callee.handle_heartbeat (source_node hdr));;
        mret await_header
    | _ => (* invalid operation *) err dm
    end.

(** [instance::handle(ctx, dm, hdr, is_payload)] on a stream channel.
    [hdr] is the caller's header accumulator; the call returns it next to
    the connection state. *)
Definition handle (dm : new_data_msg) (hdr : header) (is_payload : bool)
  : M (connection_state * header) :=
  if is_payload then
    if bool_decide (N.of_nat (length (buf dm)) ≠ payload_len hdr) then
      st ← err dm; mret (st, hdr)
    else
      st ← handle_frame dm hdr (Some (buf dm)); mret (st, hdr)
  else
    let '(hdr', e) := bd_header E (buf dm) hdr in
    if e || negb (valid E hdr') then
      st ← err dm; mret (st, hdr')
    else if (0 <? payload_len hdr')%N then
      mret (await_payload, hdr')
    else
      st ← handle_frame dm hdr' None; mret (st, hdr').

End stream_handler.

(** ** Heartbeats, node shutdown and the published-actors map *)

Section bookkeeping.
Context (E : env).

(** [instance::handle_heartbeat(ctx)]: a heartbeat frame to every direct
    peer. *)
Definition handle_heartbeat : M unit :=
  s ← get;
  foldr (λ kvp rest,
           s' ← get;
           on_wr_buf kvp.1 (λ b, write_heartbeat E s' b kvp.2);;
           modify (add_log [Flush kvp.1]);;
           rest)
        (mret ()) (map_to_list (direct_by_hdl_ (tbl_ s))).

(** [instance::handle_node_shutdown] *)
Definition handle_node_shutdown (affected_node : node_id) : M unit :=
  if bool_decide (affected_node = none) then mret ()
  else
    s ← get;
    let erased := routing.erase_nid (tbl_ s) affected_node in
    modify (set_tbl erased.1);;
    modify (add_log (Callee ∘ callee.purge_state <$> erased.2)).

Fixpoint erase_port (port : N) (pas : list (N * published_actor))
  : list (N * published_actor) :=
  match pas with
  | [] => []
  | (p, pa) :: rest =>
      if decide (p = port) then rest else (p, pa) :: erase_port port rest
  end.

(** [published_actors_[port]] with both halves swapped in; a new row goes
    to the end of the iteration order. *)
Fixpoint assign_port (port : N) (pa : published_actor)
    (pas : list (N * published_actor)) : list (N * published_actor) :=
  match pas with
  | [] => [(port, pa)]
  | (p, old) :: rest =>
      if decide (p = port) then (p, pa) :: rest
      else (p, old) :: assign_port port pa rest
  end.

(** [instance::add_published_actor] *)
Definition add_published_actor (port : N) (published_actor : strong_actor_ptr)
    (published_interface : gset string) : M unit :=
  s ← get;
  modify (set_published
    (assign_port port (published_actor, published_interface)
                 (published_actors_ s)));;
  notify (hook.actor_published published_actor published_interface port).

(** A supplied callback is called; a null one is skipped. *)
Definition call_cb (cb : bool) (whom : strong_actor_ptr) (port : N)
  : list effect :=
  if cb then [Removed whom port] else [].

(** [instance::remove_published_actor(port, cb)] *)
Definition remove_published_port (port : N) (cb : bool) : M nat :=
  s ← get;
  match find_port port (published_actors_ s) with
  | None => mret 0
  | Some pa =>
      modify (add_log (call_cb cb pa.1 port));;
      modify (set_published (erase_port port (published_actors_ s)));;
      mret 1
  end.

(** The loop of [remove_published_actor] for [port == 0]: the rows kept,
    the callback calls made and the count, walking the map from [begin()]
    to [end()]. *)
Fixpoint remove_loop (whom : actor_addr) (cb : bool)
    (pas : list (N * published_actor))
  : list (N * published_actor) * list effect * nat :=
  match pas with
  | [] => ([], [], 0)
  | (p, pa) :: rest =>
      let '(kept, calls, result) := remove_loop whom cb rest in
      if decide (pa.1 = whom) then
        (kept, call_cb cb pa.1 p ++ calls, S result)
      else ((p, pa) :: kept, calls, result)
  end.

(** [instance::remove_published_actor(whom, port, cb)] *)
Definition remove_published_actor (whom : actor_addr) (port : N) (cb : bool)
  : M nat :=
  s ← get;
  if bool_decide (port ≠ 0%N) then
    match find_port port (published_actors_ s) with
    | Some pa =>
        if decide (pa.1 = whom) then
          modify (add_log (call_cb cb pa.1 port));;
          modify (set_published (erase_port port (published_actors_ s)));;
          mret 1
        else mret 0
    | None => mret 0
    end
  else
    let '(kept, calls, result) := remove_loop whom cb (published_actors_ s) in
    modify (add_log calls);;
    modify (set_published kept);;
    mret result.

End bookkeeping.

(** ** A small codec for running the model

    Headers take two bytes (operation tag, payload length); a string is a
    length byte followed by its bytes; an actor id is one byte and the
    interface set is not transmitted. *)
Module demo.

Definition byte_of_N (n : N) : byte := default x00 (Byte.of_N (n mod 256)).

Definition tag (op : message_type) : N :=
  match op with
  | server_handshake => 0
  | client_handshake => 1
  | dispatch_message => 2
  | announce_proxy => 3
  | kill_proxy => 4
  | heartbeat => 5
  | udp_server_handshake => 6
  | udp_client_handshake => 7
  end%N.

Definition untag (n : N) : option message_type :=
  match n with
  | 0 => Some server_handshake
  | 1 => Some client_handshake
  | 2 => Some dispatch_message
  | 3 => Some announce_proxy
  | 4 => Some kill_proxy
  | 5 => Some heartbeat
  | 6 => Some udp_server_handshake
  | 7 => Some udp_client_handshake
  | _ => None
  end%N.

Definition bs_header (hdr : header) : ser_out :=
  SerOut [byte_of_N (tag (operation hdr)); byte_of_N (payload_len hdr)] false.

(** The remaining fields of the accumulator stand for those the two-byte
    header does not carry. *)
Definition bd_header (b : buffer_type) (hdr : header) : header * bool :=
  match b with
  | [t; l] =>
      match untag (Byte.to_N t) with
      | Some op =>
          (Header op (flags hdr) (Byte.to_N l) (operation_data hdr)
                  (source_node hdr) (dest_node hdr)
                  (source_actor hdr) (dest_actor hdr), false)
      | None => (hdr, true)
      end
  | _ => (hdr, true)
  end.

Definition sink_string (str : string) : ser_out :=
  let bytes := String.list_byte_of_string str in
  SerOut (byte_of_N (N.of_nat (length bytes)) :: bytes) false.

Definition bd_string (b : buffer_type) : option (string * buffer_type) :=
  match b with
  | [] => None
  | n :: rest =>
      let len := N.to_nat (Byte.to_N n) in
      if decide (len ≤ length rest)
      then Some (String.string_of_list_byte (take len rest), drop len rest)
      else None
  end.

Definition sink_aid_sigs (aid : actor_id) (_ : gset string) : ser_out :=
  SerOut [byte_of_N aid] false.

Definition bd_aid_sigs (b : buffer_type)
  : option (actor_id * gset string * buffer_type) :=
  match b with
  | [] => None
  | a :: rest => Some (Byte.to_N a, ∅, rest)
  end.

Definition bd_atom (b : buffer_type) : option (atom_value * buffer_type) :=
  match b with
  | [] => None
  | a :: rest => Some (Byte.to_N a, rest)
  end.

Definition sink_stack_msg (_ : list strong_actor_ptr) (msg : message)
  : ser_out :=
  match msg with
  | Message content =>
      SerOut (byte_of_N (N.of_nat (length content)) :: (byte_of_N <$> content))
             false
  end.

Definition bd_stack_msg (b : buffer_type)
  : option (list strong_actor_ptr * message * buffer_type) :=
  match b with
  | [] => None
  | n :: rest =>
      let len := N.to_nat (Byte.to_N n) in
      if decide (len ≤ length rest)
      then Some ([], Message (Byte.to_N <$> take len rest), drop len rest)
      else None
  end.

Definition sink_error (e : error) : ser_out :=
  match e with Error code => SerOut [byte_of_N code] false end.

Definition bd_error (b : buffer_type) : option (error * buffer_type) :=
  match b with
  | [] => None
  | c :: rest => Some (Error (Byte.to_N c), rest)
  end.

Definition codec : env :=
  Env 2 1%N "mine" (λ _, x00) (λ _, true)
      bd_header bs_header bd_string bd_aid_sigs bd_atom bd_stack_msg
      bd_error sink_string sink_aid_sigs sink_stack_msg sink_error.

Definition this_node : node_id := node 1%N.
Definition n1 : node_id := node 11%N.
Definition n2 : node_id := node 12%N.

(** A fresh instance, and one with the direct route [n1 <-> conn 7]. *)
Definition fresh : instance := Instance empty_table this_node [] ∅ [].

Definition routed : instance :=
  Instance (routing.add empty_table (conn_hdl 7%N) n1) this_node [] ∅ [].

(** [routed] with a second direct route, [n2 <-> conn 8]. *)
Definition routed2 : instance :=
  Instance (routing.add (tbl_ routed) (conn_hdl 8%N) n2) this_node [] ∅ [].

(** The payload of a server handshake from application "mine", publishing
    actor 42, and that of a client handshake. *)
Definition hello : buffer_type :=
  ser_bytes (sink_string "mine") ++ ser_bytes (sink_aid_sigs 42%N ∅).

Definition greeting : buffer_type := ser_bytes (sink_string "mine").

(** A header accumulator before anything was read into it. *)
Definition blank : header :=
  Header heartbeat 0 0 0 none none invalid_actor_id invalid_actor_id.

Definition server_hello : header :=
  Header server_handshake 0 6 1 n1 none 42%N invalid_actor_id.

Definition client_hello_from_self : header :=
  Header client_handshake 0 5 0 this_node n1 invalid_actor_id invalid_actor_id.

Definition udp_hello : header :=
  Header udp_server_handshake 0 6 1 n1 none 42%N invalid_actor_id.

(** A message of two words from actor 5 on [n1] to actor 9 on [n2]. *)
Definition note : message := Message [1%N; 2%N].

Definition parcel : buffer_type := ser_bytes (sink_stack_msg [] note).

Definition to_n2 : header := Header dispatch_message 0 3 17 n1 n2 5%N 9%N.

(** What the broker hands to [handle]: the handle and the bytes read. *)
Definition hello_on_3 : new_data_msg := NewDataMsg 3%N hello.
Definition hello_on_7 : new_data_msg := NewDataMsg 7%N hello.
Definition greeting_on_3 : new_data_msg := NewDataMsg 3%N greeting.
Definition parcel_on_7 : new_data_msg := NewDataMsg 7%N parcel.
Definition nothing_on_7 : new_data_msg := NewDataMsg 7%N [].
Definition header_on_7 : new_data_msg := NewDataMsg 7%N [x02; x03].

(** The header [header_on_7] decodes to. *)
Definition announced : header :=
  Header dispatch_message 0 3 0 none none invalid_actor_id invalid_actor_id.

Definition peer : actor := Actor n2 9%N.

Definition worker : actor := Actor this_node 3%N.
Definition helper : actor := Actor this_node 4%N.

(** An instance that published [worker] on ports 80 and 82 and [helper]
    on port 81. *)
Definition publishing : instance :=
  Instance empty_table this_node
           [(80%N, (Some worker, ∅)); (81%N, (Some helper, ∅));
            (82%N, (Some worker, ∅))]
           ∅ [].

End demo.

(** ** Notions used to state the properties *)

(** The state [err] leaves behind on handle [h]. *)
Definition closed (h : endpoint_handle) (s : instance) : instance :=
  add_log (Callee ∘ callee.purge_state <$> (routing.erase_hdl (tbl_ s) h).2)
          (set_tbl (routing.erase_hdl (tbl_ s) h).1 s).

(** A call of [handle] that carries a complete frame: either the payload
    phase with exactly [payload_len] bytes, or the header phase with a
    header that decodes, is valid and announces no payload.  The result is
    the header and the payload the frame is processed with. *)
Definition complete_frame (E : env) (dm : new_data_msg) (hdr : header)
    (is_payload : bool) : option (header * option buffer_type) :=
  if is_payload then
    if bool_decide (N.of_nat (length (buf dm)) = payload_len hdr)
    then Some (hdr, Some (buf dm)) else None
  else
    let '(hdr', e) := bd_header E (buf dm) hdr in
    if negb e && valid E hdr' && bool_decide (payload_len hdr' = 0%N)
    then Some (hdr', None) else None.

(** The reserved header region after the header was serialized over it. *)
Definition patched (E : env) (hdr : header) : buffer_type :=
  charbuf_sink (placeholder E) 0 (header_size E) (bs_header E hdr).

(** ** Datagram handler *)

(** What the broker hands to the datagram handler: the handle, the packet
    and the port the packet came in on, if known. *)
Record new_datagram_msg := NewDatagramMsg {
  dgram_handle_of : N;
  dgram_buf : buffer_type;
  dgram_port : option N
}.

(** The range [[itr, itr + n)] of a buffer and the iterator behind it.
    The source forms the range without a bounds check; a range that runs
    past [end()] has no defined result. *)
Definition read_range (n : nat) (itr : buffer_type)
  : M (buffer_type * buffer_type) :=
  λ s, if decide (n ≤ length itr) then Some ((take n itr, drop n itr), s)
       else None.

Section datagram_handler.
Context (E : env).

(** The cleanup closure [err] of the datagram handler. *)
Definition dgram_err (dm : new_datagram_msg) : M bool :=
  s ← get;
  let erased := routing.erase_hdl (tbl_ s) (dgram_hdl (dgram_handle_of dm)) in
  modify (set_tbl erased.1);;
  modify (add_log (Callee ∘ callee.purge_state <$> erased.2));;
  mret false.

(** The cases of the switch return [false] where the source returns
    [err()] and [true] where it breaks out of the switch. *)
Definition dgram_udp_server_handshake (dm : new_datagram_msg) (hdr : header)
    (payload : option buffer_type) : M bool :=
  match payload_valid hdr payload with
  | None => dgram_err dm
  | Some p =>
      match bd_string E p with
      | None => dgram_err dm
      | Some (remote_appid, rest) =>
          if bool_decide (remote_appid ≠ middleman_app_identifier E)
          then dgram_err dm
          else
            match bd_aid_sigs E rest with
            | None => dgram_err dm
            | Some (aid, sigs, _) =>
                s ← get;
                let src := source_node hdr in
                (* close self connection after handshake is done *)
                if bool_decide (src = this_node_ s) then
                  call (callee.finalize_handshake src aid sigs);;
                  dgram_err dm
                (* close this connection if we already have a direct one *)
                else if routing.lookup_hdl (tbl_ s) src is Some _ then
                  call (callee.finalize_handshake src aid sigs);;
                  dgram_err dm
                else
                  modify (set_tbl
                    (routing.add (tbl_ s) (dgram_hdl (dgram_handle_of dm))
                                 src));;
                  s' ← get;
                  match routing.lookup (tbl_ s') src with
                  | None => dgram_err dm
                  | Some path =>
                      on_wr_buf (hdl path)
                        (λ b, write_client_handshake E s' b src);;
                      call (callee.learned_new_node_directly src);;
                      call (callee.finalize_handshake src aid sigs);;
                      flush path;;
                      mret true
                  end
            end
      end
  end.

Definition dgram_udp_client_handshake (dm : new_datagram_msg) (hdr : header)
    (payload : option buffer_type) : M bool :=
  s ← get;
  let src := source_node hdr in
  if routing.lookup_hdl (tbl_ s) src is Some _ then
    (* received second client handshake *)
    mret true
  else
    match payload_valid hdr payload with
    | None => dgram_err dm
    | Some p =>
        match bd_string E p with
        | None => dgram_err dm
        | Some (remote_appid, _) =>
            if bool_decide (remote_appid ≠ middleman_app_identifier E)
            then dgram_err dm
            else
              modify (set_tbl
                (routing.add (tbl_ s) (dgram_hdl (dgram_handle_of dm)) src));;
              s' ← get;
              (* write handshake as server in response *)
              match routing.lookup (tbl_ s') src with
              | None => dgram_err dm
              | Some path =>
                  match dgram_port dm with
                  | Some port =>
                      on_wr_buf (hdl path)
                        (λ b, write_udp_server_handshake E s' b src (Some port))
                  | None =>
                      on_wr_buf (hdl path)
                        (λ b, write_udp_server_handshake E s' b src None)
                  end;;
                  call (callee.learned_new_node_directly src);;
                  mret true
              end
        end
    end.

Definition dgram_dispatch_message (dm : new_datagram_msg) (hdr : header)
    (payload : option buffer_type) : M bool :=
  match payload_valid hdr payload with
  | None => dgram_err dm
  | Some p =>
      let named := has hdr named_receiver_flag in
      match (if named then bd_atom E p else Some (0%N, p)) with
      | None => dgram_err dm
      | Some (receiver_name, rest) =>
          match bd_stack_msg E rest with
          | None => dgram_err dm
          | Some (forwarding_stack, msg, _) =>
              let mid := from_integer_value (operation_data hdr) in
              (if named then
                 call (callee.deliver_named (source_node hdr)
                         (source_actor hdr) receiver_name mid
                         forwarding_stack msg)
               else
                 call (callee.deliver (source_node hdr) (source_actor hdr)
                         (dest_actor hdr) mid forwarding_stack msg));;
              mret true
          end
      end
  end.

Definition dgram_kill_proxy (dm : new_datagram_msg) (hdr : header)
    (payload : option buffer_type) : M bool :=
  match payload_valid hdr payload with
  | None => dgram_err dm
  | Some p =>
      match bd_error E p with
      | None => dgram_err dm
      | Some (fail_state, _) =>
          call (callee.kill_proxy (source_node hdr) (source_actor hdr)
                  fail_state);;
          mret true
      end
  end.

Definition dgram_switch (dm : new_datagram_msg) (hdr : header)
    (payload : option buffer_type) : M bool :=
  match operation hdr with
  | udp_server_handshake => dgram_udp_server_handshake dm hdr payload
  | udp_client_handshake => dgram_udp_client_handshake dm hdr payload
  | server_handshake => (* ignored *) mret true
  | client_handshake => (* ignored *) mret true
  | dispatch_message => dgram_dispatch_message dm hdr payload
  | announce_proxy =>
      call (callee.proxy_announced (source_node hdr) (dest_actor hdr));;
      mret true
  | kill_proxy => dgram_kill_proxy dm hdr payload
  | heartbeat =>
      call (callee.handle_heartbeat (source_node hdr));;
      mret true
  end.

(** One turn of the [do ... while] loop from iterator position [itr]: the
    header and the payload are cut out of the packet and processed.  The
    result says whether the loop goes on ([false]: the handler returned
    [err()]) and carries the header accumulator and the iterator. *)
Definition dgram_frame (dm : new_datagram_msg) (itr : buffer_type)
    (hdr : header) : M (bool * header * buffer_type) :=
  '(hdr_buf, itr1) ← read_range (header_size E) itr;
  let '(hdr', e) := bd_header E hdr_buf hdr in
  if e || negb (valid E hdr') then
    ok ← dgram_err dm; mret (ok, hdr', itr1)
  else
    '(pl_buf, itr2) ← read_range (N.to_nat (payload_len hdr')) itr1;
    let payload := if (0 <? payload_len hdr')%N then Some pl_buf else None in
    s ← get;
    if needs_forwarding s hdr' then
      ok ← dgram_err dm; mret (ok, hdr', itr2)
    else
      ok ← dgram_switch dm hdr' payload; mret (ok, hdr', itr2).

(** The loop, with a bound on its turns; [None] as result: the bound was
    reached. *)
Fixpoint dgram_loop (fuel : nat) (dm : new_datagram_msg) (itr : buffer_type)
    (hdr : header) : M (option bool * header) :=
  match fuel with
  | 0 => mret (None, hdr)
  | S fuel' =>
      '(ok, hdr', itr') ← dgram_frame dm itr hdr;
      if negb ok then (mret (Some false, hdr') : M (option bool * header))
      else
        (* while (dgram_itr != dm.buf.end()) *)
        match itr' with
        | [] => mret (Some true, hdr')
        | _ => dgram_loop fuel' dm itr' hdr'
        end
  end.

(** [instance::handle(ctx, dm, hdr)] on a datagram channel.  Every turn
    of the loop moves the iterator forward by at least [header_size]
    bytes. *)
Definition handle_datagram (dm : new_datagram_msg) (hdr : header)
  : M (option bool * header) :=
  dgram_loop (S (length (dgram_buf dm))) dm (dgram_buf dm) hdr.

End datagram_handler.

(** ** [cppa/util/type_list.hpp] *)

Section type_list.
Context {type uniform_type_info : Type}.
Context (void_type : type) (uniform_typeid : type → uniform_type_info).

(** [type_list<Types...>] is the list of its types; the empty list has
    [void_type] as head and itself as tail. *)
Definition head_type (tl : list type) : type :=
  match tl with
  | [] => void_type
  | head :: _ => head
  end.

Definition tail_type (tl : list type) : list type :=
  match tl with
  | [] => []
  | _ :: tail => tail
  end.

Definition size (tl : list type) : nat := length tl.

(** [init<TypeList>(what)]; the pointer [what] is an index into [m_arr].
    A write behind the last slot of the array has no defined result. *)
Fixpoint init (tl : list type) (what : nat) (m_arr : list uniform_type_info)
  : option (list uniform_type_info) :=
  if decide (what < length m_arr) then
    let m_arr' := <[what:=uniform_typeid (head_type tl)]> m_arr in
    match tl with
    | _ :: (_ :: _) as tail => (* TypeList::size > 1 *) init tail (S what) m_arr'
    | _ => Some m_arr'
    end
  else None.

(** The constructor of a non-empty [type_list], on the array as it comes
    from memory. *)
Definition type_list (tl : list type) (m_arr : list uniform_type_info)
  : option (list uniform_type_info) :=
  init tl 0 m_arr.

(** [at(pos)]; [None] is an access outside the array. *)
Definition at_ (m_arr : list uniform_type_info) (pos : nat)
  : option uniform_type_info :=
  m_arr !! pos.

End type_list.

(** ** A codec that carries every header field

    Eight bytes per header, one per field; a node is sent as its number
    plus one, [none] as zero.  The other values are framed as in
    [demo]. *)
Module wire.

Definition node_byte (n : node_id) : byte :=
  match n with
  | none => x00
  | node k => demo.byte_of_N (k + 1)
  end.

Definition byte_node (b : byte) : node_id :=
  match Byte.to_N b with
  | 0%N => none
  | k => node (k - 1)
  end.

Definition bs_header (hdr : header) : ser_out :=
  SerOut [demo.byte_of_N (demo.tag (operation hdr));
          demo.byte_of_N (flags hdr);
          demo.byte_of_N (payload_len hdr);
          demo.byte_of_N (operation_data hdr);
          node_byte (source_node hdr);
          node_byte (dest_node hdr);
          demo.byte_of_N (source_actor hdr);
          demo.byte_of_N (dest_actor hdr)]
         false.

Definition bd_header (b : buffer_type) (hdr : header) : header * bool :=
  match b with
  | [t; f; l; d; sn; dn; sa; da] =>
      match demo.untag (Byte.to_N t) with
      | Some op =>
          (Header op (Byte.to_N f) (Byte.to_N l) (Byte.to_N d)
                  (byte_node sn) (byte_node dn) (Byte.to_N sa) (Byte.to_N da),
           false)
      | None => (hdr, true)
      end
  | _ => (hdr, true)
  end.

Definition codec : env :=
  Env 8 1%N "mine" (λ _, x00) (λ _, true)
      bd_header bs_header demo.bd_string demo.bd_aid_sigs demo.bd_atom
      demo.bd_stack_msg demo.bd_error demo.sink_string demo.sink_aid_sigs
      demo.sink_stack_msg demo.sink_error.

End wire.

(** ** Further notions used to state properties *)

(** The calls the handlers make on their way to closing a connection. *)
Definition is_cleanup (e : effect) : bool :=
  match e with
  | Callee (callee.purge_state _) => true
  | Callee (callee.finalize_handshake _ _ _) => true
  | _ => false
  end.

(** A packet that starts with a well-formed frame: enough bytes for a
    header that decodes and is valid, and enough bytes behind it for the
    payload it announces.  The result is the header, the payload the
    frame is processed with and the rest of the packet. *)
Definition first_frame (E : env) (packet : buffer_type) (hdr : header)
  : option (header * option buffer_type * buffer_type) :=
  if decide (header_size E ≤ length packet) then
    let '(hdr', e) := bd_header E (take (header_size E) packet) hdr in
    let behind := drop (header_size E) packet in
    let plen := N.to_nat (payload_len hdr') in
    if negb e && valid E hdr' && bool_decide (plen ≤ length behind) then
      Some (hdr',
            if (0 <? payload_len hdr')%N then Some (take plen behind)
            else None,
            drop plen behind)
    else None
  else None.

(** The state [dgram_err] leaves behind on datagram handle [h]. *)
Definition dgram_closed (h : N) (s : instance) : instance :=
  closed (dgram_hdl h) s.

(** ** Inputs over the [wire] codec *)

Module sample.

(** A frame as a peer writes it: the header, then the payload. *)
Definition frame (hdr : header) (payload : buffer_type) : buffer_type :=
  ser_bytes (wire.bs_header hdr) ++ payload.

(** An instance on node [n2], and one with a datagram route to [n1]. *)
Definition remote : instance := Instance empty_table demo.n2 [] ∅ [].

Definition dgram_routed : instance :=
  Instance (routing.add empty_table (dgram_hdl 5%N) demo.n1)
           demo.this_node [] ∅ [].

(** Handshakes: from [n1], from this node itself, and from an application
    with another identifier. *)
Definition hello_hdr : header :=
  Header server_handshake 0 6 1 demo.n1 none 42%N invalid_actor_id.

Definition self_hello : header :=
  Header server_handshake 0 6 1 demo.this_node none 42%N invalid_actor_id.

Definition foreign : buffer_type :=
  ser_bytes (demo.sink_string "yours") ++ [x2a].

Definition foreign_hello : header :=
  Header server_handshake 0 7 1 demo.n1 none 42%N invalid_actor_id.

Definition foreign_on_3 : new_data_msg := NewDataMsg 3%N foreign.

Definition greet_hdr : header :=
  Header client_handshake 0 5 0 demo.n1 demo.this_node
         invalid_actor_id invalid_actor_id.

Definition udp_greet_hdr : header :=
  Header udp_client_handshake 0 5 1 demo.n1 none
         invalid_actor_id invalid_actor_id.

(** Messages for this node: [demo.note] for actor 9, the same for the
    actor named by atom 7, and one that announces no payload. *)
Definition note_hdr : header :=
  Header dispatch_message 0 3 17 demo.n1 demo.this_node 5%N 9%N.

Definition named_hdr : header :=
  Header dispatch_message named_receiver_flag 4 17 demo.n1 demo.this_node
         5%N 9%N.

Definition named_parcel : buffer_type := x07 :: demo.parcel.

Definition empty_hdr : header :=
  Header dispatch_message 0 0 17 demo.n1 demo.this_node 5%N 9%N.

(** The same message addressed to [n2]. *)
Definition stray_hdr : header :=
  Header dispatch_message 0 3 17 demo.n1 demo.n2 5%N 9%N.

Definition announce_hdr : header :=
  Header announce_proxy 0 0 0 demo.n1 demo.this_node invalid_actor_id 9%N.

Definition beat_hdr : header :=
  Header heartbeat 0 0 0 demo.n1 none invalid_actor_id invalid_actor_id.

Definition kill_hdr : header :=
  Header kill_proxy 0 1 0 demo.n1 demo.this_node 5%N invalid_actor_id.

(** What the broker hands to the stream handler. *)
Definition named_parcel_on_7 : new_data_msg := NewDataMsg 7%N named_parcel.
Definition reason_on_7 : new_data_msg := NewDataMsg 7%N [x07].
Definition nothing_on_3 : new_data_msg := NewDataMsg 3%N [].
Definition announce_on_7 : new_data_msg :=
  NewDataMsg 7%N (frame announce_hdr []).
Definition beat_on_7 : new_data_msg := NewDataMsg 7%N (frame beat_hdr []).
Definition empty_on_7 : new_data_msg := NewDataMsg 7%N (frame empty_hdr []).

(** Packets on datagram handle 5. *)
Definition packet (b : buffer_type) : new_datagram_msg :=
  NewDatagramMsg 5%N b None.

Definition two_frames : new_datagram_msg :=
  packet (frame announce_hdr [] ++ frame beat_hdr []).

Definition stray_packet : new_datagram_msg :=
  packet (frame stray_hdr demo.parcel).

Definition hello_packet : new_datagram_msg :=
  packet (frame hello_hdr demo.hello).

Definition note_packet : new_datagram_msg :=
  packet (frame note_hdr demo.parcel).

(** A UDP client handshake that came in on port 80. *)
Definition greet_packet : new_datagram_msg :=
  NewDatagramMsg 5%N (frame udp_greet_hdr demo.greeting) (Some 80%N).

End sample.

(** ** Running the state monad *)

Global Arguments write : simpl never.
Global Arguments patched : simpl never.

Ltac run :=
  unfold mbind, M_bind, mret, M_ret, get, modify, call, notify, flush,
    on_wr_buf, CAF_ASSERT; simpl.

(** Instances of routing consistency at the keys of a proof. *)
Ltac inverse_maps Hc h1 n1 h n :=
  pose proof (Hc h1 n1); pose proof (Hc h n1); pose proof (Hc h1 n);
  pose proof (Hc h n); clear Hc.

Lemma err_run dm s :
  err dm s = Some (close_connection, closed (conn_hdl (handle_of dm)) s).
Proof. done. Qed.

Lemma handle_complete_frame E dm hdr0 is_payload hdr payload s :
  complete_frame E dm hdr0 is_payload = Some (hdr, payload) →
  handle E dm hdr0 is_payload s =
    match handle_frame E dm hdr payload s with
    | Some (st, s') => Some ((st, hdr), s')
    | None => None
    end.
Proof.
  unfold complete_frame, handle. destruct is_payload.
  - case_bool_decide as Hlen; [|done]. intros [= <- <-].
    rewrite bool_decide_false by naive_solver. by run.
  - destruct (bd_header E (buf dm) hdr0) as [hdr' e].
    destruct e; [done|]; simpl.
    destruct (valid E hdr'); [|done]; simpl.
    case_bool_decide as Hlen; [|done]. intros [= <- <-].
    rewrite Hlen. by run.
Qed.

Lemma wr_buf_add_log es s h : wr_buf (add_log es s) h = wr_buf s h.
Proof. done. Qed.

Lemma wr_buf_set_tbl t s h : wr_buf (set_tbl t s) h = wr_buf s h.
Proof. done. Qed.

Lemma wr_buf_set_eq h b s : wr_buf (set_wr_buf h b s) h = b.
Proof. unfold wr_buf, set_wr_buf; simpl. by rewrite lookup_insert_eq. Qed.

Lemma wr_buf_set_ne h h' b s :
  h ≠ h' → wr_buf (set_wr_buf h b s) h' = wr_buf s h'.
Proof. intros. unfold wr_buf, set_wr_buf; simpl. by rewrite lookup_insert_ne. Qed.

Create Rewrite HintDb state.
#[global] Hint Rewrite wr_buf_add_log wr_buf_set_tbl wr_buf_set_eq : state.
#[global] Hint Rewrite wr_buf_set_ne using congruence : state.

(** ** Forwarding *)

(** C6 -- a complete frame that needs forwarding (no handshake, no
    heartbeat, destination other than this node) and has no route to its
    destination is dropped: the handler emits [message_forwarding_failed],
    changes nothing else (no byte written, routing table as before, no
    call into the callee) and returns [await_header]. *)
Theorem forward_without_route E dm hdr0 is_payload hdr payload s :
  complete_frame E dm hdr0 is_payload = Some (hdr, payload) →
  is_handshake hdr = false →
  is_heartbeat hdr = false →
  dest_node hdr ≠ this_node_ s →
  routing.lookup (tbl_ s) (dest_node hdr) = None →
  ∃ s',
    handle E dm hdr0 is_payload s = Some ((await_header, hdr), s')
    ∧ log s' = log s ++ [Notify (hook.message_forwarding_failed hdr payload)]
    ∧ wr_bufs s' = wr_bufs s
    ∧ tbl_ s' = tbl_ s
    ∧ published_actors_ s' = published_actors_ s.
Proof.
  intros Hframe Hhs Hhb Hdest Hroute.
  rewrite (handle_complete_frame _ _ _ _ _ _ _ Hframe).
  unfold handle_frame, needs_forwarding, forward. run.
  rewrite Hhs, Hhb, bool_decide_true by done. simpl.
  rewrite Hroute. eauto 10.
Qed.

(** C2 -- a complete frame that needs forwarding and has a route to its
    destination: the header is serialized as received onto the end of the
    route's write buffer, the payload (if any) follows verbatim, the
    endpoint is flushed, [message_forwarded] is emitted and the handler
    returns [await_header]; the callee is not called and no other buffer
    and no route changes.  The header serializer is the library's, so the
    statement names the run that reports no error. *)
Theorem forward_with_route E dm hdr0 is_payload hdr payload s path :
  complete_frame E dm hdr0 is_payload = Some (hdr, payload) →
  is_handshake hdr = false →
  is_heartbeat hdr = false →
  dest_node hdr ≠ this_node_ s →
  routing.lookup (tbl_ s) (dest_node hdr) = Some path →
  ser_err (bs_header E hdr) = false →
  ∃ s',
    handle E dm hdr0 is_payload s = Some ((await_header, hdr), s')
    ∧ wr_buf s' (hdl path) =
        wr_buf s (hdl path) ++ ser_bytes (bs_header E hdr) ++ default [] payload
    ∧ (∀ h, h ≠ hdl path → wr_buf s' h = wr_buf s h)
    ∧ log s' = log s ++ [Flush (hdl path);
                         Notify (hook.message_forwarded hdr payload)]
    ∧ tbl_ s' = tbl_ s
    ∧ published_actors_ s' = published_actors_ s.
Proof.
  intros Hframe Hhs Hhb Hdest Hroute Hser.
  rewrite (handle_complete_frame _ _ _ _ _ _ _ Hframe).
  unfold handle_frame, needs_forwarding, forward. run.
  rewrite Hhs, Hhb, bool_decide_true by done. simpl.
  rewrite Hroute, Hser. unfold vector_sink.
  destruct payload as [p|]; simpl; eexists; (split; [reflexivity|]);
    unfold wr_buf; simpl; split_and!; try done.
  - rewrite !lookup_insert_eq. simpl. by rewrite <-app_assoc.
  - intros h Hh. by rewrite !lookup_insert_ne.
  - by rewrite <-app_assoc.
  - by rewrite lookup_insert_eq, app_nil_r.
  - intros h Hh. by rewrite lookup_insert_ne.
  - by rewrite <-app_assoc.
Qed.

(** When the header serializer reports an error, the forwarding branch
    runs [err] on what it has written so far. *)
Lemma forward_serializer_error E dm hdr0 is_payload hdr payload s path :
  complete_frame E dm hdr0 is_payload = Some (hdr, payload) →
  is_handshake hdr = false →
  is_heartbeat hdr = false →
  dest_node hdr ≠ this_node_ s →
  routing.lookup (tbl_ s) (dest_node hdr) = Some path →
  ser_err (bs_header E hdr) = true →
  handle E dm hdr0 is_payload s =
    Some ((close_connection, hdr),
          closed (conn_hdl (handle_of dm))
            (set_wr_buf (hdl path)
               (wr_buf s (hdl path) ++ ser_bytes (bs_header E hdr)) s)).
Proof.
  intros Hframe Hhs Hhb Hdest Hroute Hser.
  rewrite (handle_complete_frame _ _ _ _ _ _ _ Hframe).
  unfold handle_frame, needs_forwarding, forward. run.
  rewrite Hhs, Hhb, bool_decide_true by done. simpl.
  by rewrite Hroute, Hser.
Qed.

(** ** The routing table *)

Lemma consistent_iff t :
  routing.consistent t ↔
  ∀ h n, direct_by_hdl_ t !! h = Some n ↔ direct_by_nid_ t !! n = Some h.
Proof.
  unfold routing.consistent, map_Forall. split.
  - intros [H1 H2] h n. split; [apply H1 | apply H2].
  - intros H. split; intros ? ? ?; by apply H.
Qed.

Lemma erase_hdl_unbinds t h :
  routing.lookup_node (routing.erase_hdl t h).1 h = none.
Proof.
  unfold routing.lookup_node, routing.erase_hdl.
  destruct (direct_by_hdl_ t !! h) as [n|] eqn:Hh; simpl.
  - by rewrite lookup_delete_eq.
  - by rewrite Hh.
Qed.

Lemma erase_hdl_no_route t h n :
  routing.consistent t →
  routing.lookup_hdl (routing.erase_hdl t h).1 n ≠ Some h.
Proof.
  rewrite consistent_iff. intros Hc.
  unfold routing.lookup_hdl, routing.erase_hdl.
  destruct (direct_by_hdl_ t !! h) as [n0|] eqn:Hh; simpl.
  - destruct (decide (n0 = n)) as [->|Hne].
    + by rewrite lookup_delete_eq.
    + rewrite lookup_delete_ne by done. intros Hn.
      apply Hc in Hn. congruence.
  - intros Hn. apply Hc in Hn. congruence.
Qed.

Lemma erase_hdl_purges t h n :
  routing.consistent t →
  routing.lookup_hdl t n = Some h →
  n ∈ (routing.erase_hdl t h).2.
Proof.
  rewrite consistent_iff. intros Hc Hn. apply Hc in Hn.
  unfold routing.erase_hdl. rewrite Hn. simpl. left.
Qed.

Lemma erase_nid_unroutes t n :
  routing.lookup_hdl (routing.erase_nid t n).1 n = None.
Proof.
  unfold routing.lookup_hdl, routing.erase_nid.
  destruct (direct_by_nid_ t !! n) as [h|] eqn:Hn; simpl.
  - by rewrite lookup_delete_eq.
  - done.
Qed.

Lemma erase_nid_unreachable t n :
  indirect_ t !! n = None →
  routing.lookup (routing.erase_nid t n).1 n = None.
Proof.
  intros Hind. unfold routing.lookup, routing.erase_nid.
  destruct (direct_by_nid_ t !! n) as [h|] eqn:Hn; simpl.
  - rewrite lookup_delete_eq. unfold routing.erase_via.
    by rewrite lookup_omap, Hind.
  - by rewrite Hn, Hind.
Qed.

Lemma erase_nid_unbinds t n h :
  routing.consistent t →
  direct_by_hdl_ (routing.erase_nid t n).1 !! h ≠ Some n.
Proof.
  rewrite consistent_iff. intros Hc.
  unfold routing.erase_nid.
  destruct (direct_by_nid_ t !! n) as [h0|] eqn:Hn; simpl.
  - destruct (decide (h0 = h)) as [->|Hne].
    + by rewrite lookup_delete_eq.
    + rewrite lookup_delete_ne by done. intros Hh.
      apply Hc in Hh. congruence.
  - intros Hh. apply Hc in Hh. congruence.
Qed.

Lemma lookup_add t h n :
  routing.lookup (routing.add t h n) n = Some (Endpoint h n).
Proof. unfold routing.lookup, routing.add; simpl. by rewrite lookup_insert_eq. Qed.

Lemma lookup_hdl_add t h n :
  routing.lookup_hdl (routing.add t h n) n = Some h.
Proof. unfold routing.lookup_hdl, routing.add; simpl. by rewrite lookup_insert_eq. Qed.

Lemma lookup_node_add t h n :
  routing.lookup_node (routing.add t h n) h = n.
Proof. unfold routing.lookup_node, routing.add; simpl. by rewrite lookup_insert_eq. Qed.

(** The operations of the table keep the two direct maps inverse to each
    other. *)
Lemma add_consistent t h n :
  routing.consistent t → routing.consistent (routing.add t h n).
Proof.
  rewrite !consistent_iff. intros Hc h1 n1. unfold routing.add; simpl.
  destruct (direct_by_nid_ t !! n) as [h'|] eqn:Hn;
    destruct (direct_by_hdl_ t !! h) as [n'|] eqn:Hh;
    inverse_maps Hc h1 n1 h n;
    rewrite !lookup_insert; repeat case_decide;
    rewrite ?lookup_delete; repeat case_decide; subst; intuition congruence.
Qed.

Lemma erase_hdl_consistent t h :
  routing.consistent t → routing.consistent (routing.erase_hdl t h).1.
Proof.
  rewrite !consistent_iff. intros Hc h1 n1. unfold routing.erase_hdl.
  destruct (direct_by_hdl_ t !! h) as [n|] eqn:Hh; simpl; [|done].
  inverse_maps Hc h1 n1 h n.
  rewrite !lookup_delete; repeat case_decide; subst; intuition congruence.
Qed.

Lemma erase_nid_consistent t n :
  routing.consistent t → routing.consistent (routing.erase_nid t n).1.
Proof.
  rewrite !consistent_iff. intros Hc h1 n1. unfold routing.erase_nid.
  destruct (direct_by_nid_ t !! n) as [h|] eqn:Hh; simpl; [|done].
  inverse_maps Hc h1 n1 h n.
  rewrite !lookup_delete; repeat case_decide; subst; intuition congruence.
Qed.

(** Routing consistency is an invariant of the stream handler and of node
    shutdown. *)
Lemma handle_consistent E dm hdr is_payload s r s' :
  handle E dm hdr is_payload s = Some (r, s') →
  routing.consistent (tbl_ s) →
  routing.consistent (tbl_ s').
Proof.
  intros Hrun Hc. revert Hrun.
  unfold handle, handle_frame, forward, handle_server_handshake,
    handle_client_handshake, handle_dispatch_message, handle_kill_proxy, err.
  unfold call, notify, flush.
  unfold mbind, M_bind, mret, M_ret, get, modify, on_wr_buf; simpl.
  intros Hrun.
  repeat (first
    [ case_match
    | match goal with
      | H : _ ≫= _ = Some _ |- _ => apply bind_Some in H as (? & ? & ?)
      end ];
    simplify_eq; simpl in * );
    eauto using add_consistent, erase_hdl_consistent.
Qed.

Lemma handle_node_shutdown_consistent n s r s' :
  handle_node_shutdown n s = Some (r, s') →
  routing.consistent (tbl_ s) →
  routing.consistent (tbl_ s').
Proof.
  unfold handle_node_shutdown. case_bool_decide; run.
  - by intros [= _ <-].
  - intros [= _ <-] Hc. by apply erase_nid_consistent.
Qed.

(** ** The phase check of the stream handler *)

(** C1 -- [handle] in the header phase ([is_payload = false]).  If the
    header does not deserialize or is not [valid], the result is
    [close_connection]; the routing table is the one [erase] leaves for the
    handle, in which no row is bound to the handle any more, and the
    callee received [purge_state] for exactly the nodes [erase] removed,
    among them every node that was routed over the handle.  If the header
    decodes, is valid and announces a payload, the result is
    [await_payload] and the instance is unchanged. *)
Theorem handle_header_phase E dm hdr s hdr' e :
  bd_header E (buf dm) hdr = (hdr', e) →
  routing.consistent (tbl_ s) →
  let h := conn_hdl (handle_of dm) in
  (e = true ∨ valid E hdr' = false →
   ∃ s',
     handle E dm hdr false s = Some ((close_connection, hdr'), s')
     ∧ tbl_ s' = (routing.erase_hdl (tbl_ s) h).1
     ∧ log s' = log s ++
         (Callee ∘ callee.purge_state <$> (routing.erase_hdl (tbl_ s) h).2)
     ∧ routing.lookup_node (tbl_ s') h = none
     ∧ (∀ n, routing.lookup_hdl (tbl_ s') n ≠ Some h)
     ∧ (∀ n, routing.lookup_hdl (tbl_ s) n = Some h →
             Callee (callee.purge_state n) ∈ log s')
     ∧ wr_bufs s' = wr_bufs s)
  ∧ (e = false → valid E hdr' = true → (0 < payload_len hdr')%N →
     handle E dm hdr false s = Some ((await_payload, hdr'), s)).
Proof.
  intros Hbd Hc h. unfold handle. rewrite Hbd. split.
  - intros Hbad.
    assert (e || negb (valid E hdr') = true) as ->.
    { destruct Hbad as [-> | ->]; [done | by rewrite orb_true_r]. }
    run. eexists. split; [reflexivity|].
    simpl. fold h. split_and!; try done.
    + apply erase_hdl_unbinds.
    + intros n. by apply erase_hdl_no_route.
    + intros n Hn. apply elem_of_app. right.
      apply (list_elem_of_fmap_2 (Callee ∘ callee.purge_state)).
      by apply erase_hdl_purges.
  - intros -> -> Hlen. simpl.
    by apply N.ltb_lt in Hlen as ->.
Qed.

(** C5 (as the code has it) -- a complete frame whose operation is
    [udp_server_handshake] or [udp_client_handshake] is an invalid
    operation for the stream handler: it runs the cleanup of [err] (the
    routes of the handle are erased, [purge_state] is called for each node
    removed) and returns [close_connection]. *)
Theorem stream_rejects_udp_handshake E dm hdr0 is_payload hdr payload s :
  complete_frame E dm hdr0 is_payload = Some (hdr, payload) →
  operation hdr = udp_server_handshake
  ∨ operation hdr = udp_client_handshake →
  let h := conn_hdl (handle_of dm) in
  ∃ s',
    handle E dm hdr0 is_payload s = Some ((close_connection, hdr), s')
    ∧ tbl_ s' = (routing.erase_hdl (tbl_ s) h).1
    ∧ log s' = log s ++
        (Callee ∘ callee.purge_state <$> (routing.erase_hdl (tbl_ s) h).2)
    ∧ routing.lookup_node (tbl_ s') h = none
    ∧ wr_bufs s' = wr_bufs s.
Proof.
  intros Hframe Hop h.
  rewrite (handle_complete_frame _ _ _ _ _ _ _ Hframe).
  unfold handle_frame, needs_forwarding, is_handshake. run.
  destruct Hop as [-> | ->]; simpl;
    (eexists; split; [reflexivity|]); simpl;
    split_and!; try done; apply erase_hdl_unbinds.
Qed.

(** ** Node shutdown *)

(** C9 -- [handle_node_shutdown(none)] changes nothing and calls nothing.
    For another node it leaves the table [erase] produces for that node,
    in which the node has no direct route and no handle is bound to it,
    and calls [purge_state] for exactly the nodes [erase] removed; buffers
    and published actors stay as they are. *)
Theorem handle_node_shutdown_spec s n :
  routing.consistent (tbl_ s) →
  handle_node_shutdown none s = Some ((), s)
  ∧ (n ≠ none →
     ∃ s',
       handle_node_shutdown n s = Some ((), s')
       ∧ tbl_ s' = (routing.erase_nid (tbl_ s) n).1
       ∧ log s' = log s ++
           (Callee ∘ callee.purge_state <$> (routing.erase_nid (tbl_ s) n).2)
       ∧ routing.lookup_hdl (tbl_ s') n = None
       ∧ (indirect_ (tbl_ s) !! n = None → routing.lookup (tbl_ s') n = None)
       ∧ (∀ h, routing.lookup_node (tbl_ s') h ≠ n)
       ∧ published_actors_ s' = published_actors_ s
       ∧ wr_bufs s' = wr_bufs s).
Proof.
  intros Hc. split; [done|]. intros Hn.
  unfold handle_node_shutdown. rewrite bool_decide_false by done. run.
  eexists. split; [reflexivity|]. simpl.
  split_and!; try done.
  - apply erase_nid_unroutes.
  - by apply erase_nid_unreachable.
  - intros h. unfold routing.lookup_node.
    pose proof (erase_nid_unbinds (tbl_ s) n h Hc) as Hh.
    destruct (direct_by_hdl_ (routing.erase_nid (tbl_ s) n).1 !! h);
      simpl; congruence.
Qed.

(** ** The frame writer *)

Lemma placeholder_length E : length (placeholder E) = header_size E.
Proof. unfold placeholder. by rewrite length_map, length_seq. Qed.

Lemma charbuf_sink_middle front region back cap out :
  length region = cap →
  charbuf_sink (front ++ region ++ back) (length front) cap out =
  front ++ charbuf_sink region 0 cap out ++ back.
Proof.
  intros Hcap. unfold charbuf_sink; simpl.
  set (written := take cap (ser_bytes out)).
  assert (length written ≤ length region) as Hw.
  { unfold written. rewrite length_take. lia. }
  rewrite take_app_length, drop_app_add', drop_app_le by done.
  by rewrite <-app_assoc.
Qed.

Lemma patched_length E hdr : length (patched E hdr) = header_size E.
Proof.
  unfold patched, charbuf_sink; simpl.
  rewrite length_app, length_drop, length_take, placeholder_length. lia.
Qed.

Lemma patched_fixed_width E hdr :
  length (ser_bytes (bs_header E hdr)) = header_size E →
  patched E hdr = ser_bytes (bs_header E hdr).
Proof.
  intros Hlen. unfold patched, charbuf_sink; simpl.
  rewrite take_ge by lia.
  rewrite drop_ge by (rewrite placeholder_length; lia).
  apply app_nil_r.
Qed.

Lemma to_uint32_small n : (n ≤ uint32_max)%N → to_uint32 n = n.
Proof. intros Hn. unfold to_uint32. apply N.mod_small. unfold uint32_max in Hn. lia. Qed.

Lemma written_length E (b : buffer_type) (pw : payload_writer) :
  length (vector_sink (b ++ placeholder E) pw) - length b - header_size E =
  length (ser_bytes pw).
Proof.
  unfold vector_sink. rewrite !length_app, placeholder_length. lia.
Qed.

Lemma write_payload_run E b hdr (pw : payload_writer) :
  (N.of_nat (length (ser_bytes pw)) ≤ uint32_max)%N →
  write E b hdr (Some pw) =
    let hdr' := set_payload_len hdr (N.of_nat (length (ser_bytes pw))) in
    Some (b ++ patched E hdr' ++ ser_bytes pw, hdr').
Proof.
  intros Hfit. unfold write. rewrite written_length.
  apply N.leb_le in Hfit as Hfit'. rewrite Hfit'. simpl.
  rewrite to_uint32_small by done.
  unfold vector_sink, patched. rewrite <-app_assoc.
  by rewrite charbuf_sink_middle by apply placeholder_length.
Qed.

Lemma write_payload_overflow E b hdr (pw : payload_writer) :
  (uint32_max < N.of_nat (length (ser_bytes pw)))%N →
  write E b hdr (Some pw) = None.
Proof.
  intros Hbig. unfold write. rewrite written_length.
  by apply N.leb_gt in Hbig as ->.
Qed.

(** C8 -- [write] with a payload writer.  The buffer ends up as what it
    held before, a region of [header_size] bytes at the old end, and after
    it the bytes the payload writer appended.  [payload_len] of the header
    is the number of those bytes, which is the growth of the buffer minus
    [header_size]; the call passes its assertion exactly when that number
    fits in 32 bits.  The region is the placeholder with the header
    serialized over it in place, and it is the serialized header itself
    when the serializer writes [header_size] bytes, as the header codec
    does. *)
Theorem write_with_payload_writer E b hdr (pw : payload_writer) :
  let plen := N.of_nat (length (ser_bytes pw)) in
  let hdr' := set_payload_len hdr plen in
  ((plen ≤ uint32_max)%N →
   ∃ b',
     write E b hdr (Some pw) = Some (b', hdr')
     ∧ b' = b ++ patched E hdr' ++ ser_bytes pw
     ∧ length (patched E hdr') = header_size E
     ∧ patched E hdr' =
         charbuf_sink (placeholder E) 0 (header_size E) (bs_header E hdr')
     ∧ payload_len hdr' = N.of_nat (length (ser_bytes pw))
     ∧ payload_len hdr' = N.of_nat (length b' - length b - header_size E)
     ∧ (length (ser_bytes (bs_header E hdr')) = header_size E →
        b' = b ++ ser_bytes (bs_header E hdr') ++ ser_bytes pw))
  ∧ ((uint32_max < plen)%N → write E b hdr (Some pw) = None).
Proof.
  intros plen hdr'. split.
  - intros Hfit. eexists. split; [by apply write_payload_run|].
    split_and!; try done.
    + apply patched_length.
    + subst hdr'. simpl. rewrite !length_app, patched_length.
      subst plen. f_equal. lia.
    + intros Hw. by rewrite patched_fixed_width.
  - apply write_payload_overflow.
Qed.

Lemma on_wr_buf_write E h hdr (pw : payload_writer) s :
  (N.of_nat (length (ser_bytes pw)) ≤ uint32_max)%N →
  on_wr_buf h (λ b, fst <$> write E b hdr (Some pw)) s =
    let hdr' := set_payload_len hdr (N.of_nat (length (ser_bytes pw))) in
    Some ((), set_wr_buf h (wr_buf s h ++ patched E hdr' ++ ser_bytes pw) s).
Proof.
  intros Hfit. unfold on_wr_buf.
  by rewrite write_payload_run.
Qed.

(** ** Outbound dispatch *)

(** C7 -- [dispatch] to a receiver on another node.  Without a route it
    returns [false], emits [message_sending_failed] and leaves every write
    buffer and the table alone.  With a route it puts a frame on the end
    of the route's write buffer whose header is a [dispatch_message]
    header with [operation_data] the integer value of [mid], addressed to
    the receiver, followed by the serialized stack and message; it then
    flushes the endpoint, emits [message_sent] with the next hop and
    returns [true]. *)
Theorem dispatch_spec E sender stack rcv mid msg s :
  actor_node rcv ≠ this_node_ s →
  let receiver := Some rcv in
  let payload := ser_bytes (sink_stack_msg E stack msg) in
  (routing.lookup (tbl_ s) (actor_node rcv) = None →
   ∃ s',
     dispatch E sender stack receiver mid msg s = Some (false, s')
     ∧ log s' = log s ++
         [Notify (hook.message_sending_failed sender receiver mid msg)]
     ∧ wr_bufs s' = wr_bufs s
     ∧ tbl_ s' = tbl_ s)
  ∧ (∀ path,
     routing.lookup (tbl_ s) (actor_node rcv) = Some path →
     (N.of_nat (length payload) ≤ uint32_max)%N →
     ∃ s' hdr,
       dispatch E sender stack receiver mid msg s = Some (true, s')
       ∧ operation hdr = dispatch_message
       ∧ operation_data hdr = integer_value mid
       ∧ payload_len hdr = N.of_nat (length payload)
       ∧ dest_node hdr = actor_node rcv
       ∧ dest_actor hdr = actor_aid rcv
       ∧ wr_buf s' (hdl path) = wr_buf s (hdl path) ++ patched E hdr ++ payload
       ∧ (length (ser_bytes (bs_header E hdr)) = header_size E →
          wr_buf s' (hdl path) =
            wr_buf s (hdl path) ++ ser_bytes (bs_header E hdr) ++ payload)
       ∧ (∀ h, h ≠ hdl path → wr_buf s' h = wr_buf s h)
       ∧ log s' = log s ++
           [Flush (hdl path);
            Notify (hook.message_sent sender (next_hop path) receiver mid msg)]
       ∧ tbl_ s' = tbl_ s).
Proof.
  intros Hnode receiver payload. split.
  - intros Hroute. unfold dispatch. run.
    rewrite bool_decide_true by done. rewrite Hroute. eauto 10.
  - intros path Hroute Hfit. unfold dispatch.
    unfold mbind at 1, M_bind at 1, get. simpl.
    unfold mbind at 1, M_bind at 1, CAF_ASSERT.
    rewrite bool_decide_true by done. rewrite Hroute.
    unfold mbind at 1, M_bind at 1.
    rewrite on_wr_buf_write by done. run.
    eexists _, (set_payload_len
                  (Header dispatch_message 0 0 (integer_value mid) _
                          (actor_node rcv) _ (actor_aid rcv))
                  (N.of_nat (length payload))).
    split; [reflexivity|].
    split_and!; try reflexivity.
    + by autorewrite with state.
    + intros Hw. autorewrite with state. by rewrite patched_fixed_width.
    + intros h Hh. by autorewrite with state.
    + simpl. by rewrite <-app_assoc.
Qed.

(** ** Handshakes on a stream channel *)

(** C3 -- a [server_handshake] frame from a node other than this one that
    has no direct route yet, with a payload that decodes and carries this
    application's identifier: the route (handle, node) is added, a
    [client_handshake] frame from this node to the new node, with the
    application identifier as payload, is put on the end of that route's
    write buffer, the callee learns the node
    ([learned_new_node_directly]) and then finalizes the handshake
    ([finalize_handshake] with the decoded actor id and interfaces), the
    endpoint is flushed and the handler returns [await_header]. *)
Theorem server_handshake_from_fresh_node
    E dm hdr0 is_payload hdr p rest rest' aid sigs s :
  complete_frame E dm hdr0 is_payload = Some (hdr, Some p) →
  operation hdr = server_handshake →
  source_node hdr ≠ this_node_ s →
  routing.lookup_hdl (tbl_ s) (source_node hdr) = None →
  bd_string E p = Some (middleman_app_identifier E, rest) →
  bd_aid_sigs E rest = Some (aid, sigs, rest') →
  let app_id := ser_bytes (sink_string E (middleman_app_identifier E)) in
  (N.of_nat (length app_id) ≤ uint32_max)%N →
  let h := conn_hdl (handle_of dm) in
  let n := source_node hdr in
  let reply :=
    Header client_handshake 0 (N.of_nat (length app_id)) 0
           (this_node_ s) n invalid_actor_id invalid_actor_id in
  ∃ s',
    handle E dm hdr0 is_payload s = Some ((await_header, hdr), s')
    ∧ tbl_ s' = routing.add (tbl_ s) h n
    ∧ routing.lookup (tbl_ s') n = Some (Endpoint h n)
    ∧ routing.lookup_hdl (tbl_ s') n = Some h
    ∧ routing.lookup_node (tbl_ s') h = n
    ∧ wr_buf s' h = wr_buf s h ++ patched E reply ++ app_id
    ∧ (length (ser_bytes (bs_header E reply)) = header_size E →
       wr_buf s' h = wr_buf s h ++ ser_bytes (bs_header E reply) ++ app_id)
    ∧ (∀ h', h' ≠ h → wr_buf s' h' = wr_buf s h')
    ∧ log s' = log s ++
        [Callee (callee.learned_new_node_directly n);
         Callee (callee.finalize_handshake n aid sigs);
         Flush h].
Proof.
  intros Hframe Hop Hself Hfresh Happ Hsigs app_id Hfit h n reply.
  assert (payload_valid hdr (Some p) = Some p) as Hvalid.
  { unfold complete_frame in Hframe. destruct is_payload.
    - case_bool_decide as Hlen; [|done].
      injection Hframe as <- <-. unfold payload_valid.
      by rewrite bool_decide_true.
    - destruct (bd_header E (buf dm) hdr0) as [? ?].
      by destruct (_ && _). }
  rewrite (handle_complete_frame _ _ _ _ _ _ _ Hframe).
  unfold handle_frame, needs_forwarding, is_handshake.
  unfold mbind at 1, M_bind at 1, get. rewrite Hop. simpl.
  unfold handle_server_handshake. rewrite Hvalid, Happ.
  rewrite bool_decide_false by naive_solver. rewrite Hsigs.
  unfold mbind at 1, M_bind at 1, get.
  rewrite bool_decide_false by done. rewrite Hfresh.
  unfold mbind at 1, M_bind at 1, modify.
  unfold mbind at 1, M_bind at 1, get. simpl.
  fold h. rewrite lookup_add.
  unfold mbind at 1, M_bind at 1. unfold write_client_handshake.
  rewrite on_wr_buf_write by done. run.
  eexists. split; [reflexivity|]. fold app_id reply.
  split_and!; try reflexivity.
  - apply lookup_add.
  - apply lookup_hdl_add.
  - apply lookup_node_add.
  - by autorewrite with state.
  - intros Hw. autorewrite with state. by rewrite patched_fixed_width.
  - intros h' Hh'. by autorewrite with state.
  - simpl. by rewrite <-!app_assoc.
Qed.

(** ** The published-actors map *)

Lemma find_port_absent port (pas : list (N * published_actor)) :
  port ∉ pas.*1 → find_port port pas = None.
Proof.
  induction pas as [|[p pa] rest IH]; [done|]. simpl.
  intros Hnot. apply not_elem_of_cons in Hnot as [Hne Hrest].
  rewrite decide_False by done. by apply IH.
Qed.

Lemma find_port_erase_ne port q (pas : list (N * published_actor)) :
  q ≠ port → find_port q (erase_port port pas) = find_port q pas.
Proof.
  intros Hne. induction pas as [|[p pa] rest IH]; [done|]. simpl.
  destruct (decide (p = port)) as [->|Hp].
  - by rewrite decide_False.
  - simpl. by rewrite IH.
Qed.

Lemma find_port_erase_eq port (pas : list (N * published_actor)) :
  NoDup pas.*1 → find_port port (erase_port port pas) = None.
Proof.
  induction pas as [|[p pa] rest IH]; [done|]. simpl.
  intros [Hp Hrest]%NoDup_cons.
  destruct (decide (p = port)) as [->|Hne].
  - by apply find_port_absent.
  - simpl. rewrite decide_False by done. by apply IH.
Qed.

Lemma remove_loop_filter whom cb (pas : list (N * published_actor)) :
  remove_loop whom cb pas =
    (filter (λ row, row.2.1 ≠ whom) pas,
     if cb then (λ row, Removed row.2.1 row.1) <$>
                filter (λ row, row.2.1 = whom) pas
     else [],
     length (filter (λ row, row.2.1 = whom) pas)).
Proof.
  induction pas as [|[p pa] rest IH]; simpl.
  - by destruct cb.
  - rewrite IH, !filter_cons. simpl.
    repeat case_decide; try naive_solver; by destruct cb.
Qed.

(** C10 -- [remove_published_actor(whom, port, cb)].  With [port = 0]
    every row whose actor is [whom] goes and the other rows stay as they
    are; a supplied [cb] is called once for each removed row, with the
    actor and the port of that row, and the result is the number of rows
    removed.  With another port only the row of that port can go, and it
    goes exactly when its actor is [whom]: then [cb] is called for it and
    the result is 1; otherwise nothing changes and the result is 0.  (The
    port map holds one row per port; that is what makes the row found at
    a port the only one there.) *)
Theorem remove_published_actor_spec whom port cb s :
  let pas := published_actors_ s in
  let gone := filter (λ row, row.2.1 = whom) pas in
  (port = 0%N →
   ∃ s',
     remove_published_actor whom port cb s = Some (length gone, s')
     ∧ published_actors_ s' = filter (λ row, row.2.1 ≠ whom) pas
     ∧ log s' = log s ++
         (if cb then (λ row, Removed row.2.1 row.1) <$> gone else [])
     ∧ tbl_ s' = tbl_ s
     ∧ wr_bufs s' = wr_bufs s)
  ∧ (port ≠ 0%N →
     ∃ s' result,
       remove_published_actor whom port cb s = Some (result, s')
       ∧ (∀ q, q ≠ port →
               find_port q (published_actors_ s') = find_port q pas)
       ∧ (∀ pa, find_port port pas = Some pa → pa.1 = whom →
                result = 1
                ∧ published_actors_ s' = erase_port port pas
                ∧ (NoDup pas.*1 →
                   find_port port (published_actors_ s') = None)
                ∧ log s' = log s ++ (if cb then [Removed pa.1 port] else []))
       ∧ ((∀ pa, find_port port pas = Some pa → pa.1 ≠ whom) →
          result = 0 ∧ s' = s)).
Proof.
  intros pas gone. split.
  - intros ->. unfold remove_published_actor. run.
    fold pas. rewrite remove_loop_filter. run.
    eexists. split; [reflexivity|]. done.
  - intros Hport. unfold remove_published_actor. run.
    rewrite bool_decide_true by done. fold pas.
    destruct (find_port port pas) as [pa|] eqn:Hfind.
    + destruct (decide (pa.1 = whom)) as [Heq|Hne]; run.
      * eexists _, _. split; [reflexivity|]. simpl. split_and!.
        -- intros q Hq. by apply find_port_erase_ne.
        -- intros pa' [= <-] _. split_and!; [done|done| |done].
           intros Hnodup. by apply find_port_erase_eq.
        -- intros Hother. by destruct (Hother pa).
      * eexists _, _. split; [reflexivity|]. split_and!; [done| |done].
        intros pa' [= <-] ?. done.
    + eexists _, _. split; [reflexivity|]. split_and!; done.
Qed.

(** ** Self connections *)

Lemma complete_frame_payload_valid E dm hdr0 is_payload hdr p :
  complete_frame E dm hdr0 is_payload = Some (hdr, Some p) →
  payload_valid hdr (Some p) = Some p.
Proof.
  unfold complete_frame. destruct is_payload.
  - case_bool_decide as Hlen; [|done].
    intros [= <- <-]. unfold payload_valid. by rewrite bool_decide_true.
  - destruct (bd_header E (buf dm) hdr0) as [? ?].
    by destruct (_ && _).
Qed.

(** A server handshake from this node itself finalizes the handshake and
    closes the connection; nothing is added to the routing table. *)
Lemma server_handshake_from_self
    E dm hdr0 is_payload hdr p rest rest' aid sigs s :
  complete_frame E dm hdr0 is_payload = Some (hdr, Some p) →
  operation hdr = server_handshake →
  source_node hdr = this_node_ s →
  bd_string E p = Some (middleman_app_identifier E, rest) →
  bd_aid_sigs E rest = Some (aid, sigs, rest') →
  handle E dm hdr0 is_payload s =
    Some ((close_connection, hdr),
          closed (conn_hdl (handle_of dm))
            (add_log [Callee (callee.finalize_handshake (source_node hdr)
                                aid sigs)] s)).
Proof.
  intros Hframe Hop Hself Happ Hsigs.
  rewrite (handle_complete_frame _ _ _ _ _ _ _ Hframe).
  unfold handle_frame, needs_forwarding, is_handshake.
  unfold mbind at 1, M_bind at 1, get. rewrite Hop. simpl.
  unfold handle_server_handshake.
  rewrite (complete_frame_payload_valid _ _ _ _ _ _ Hframe), Happ.
  rewrite bool_decide_false by naive_solver. rewrite Hsigs.
  unfold mbind at 1, M_bind at 1, get.
  rewrite bool_decide_true by done.
  unfold mbind at 1, M_bind at 1, call, modify.
  by rewrite err_run.
Qed.

(** A client handshake with this application's identifier from a node
    without a direct route adds the route (handle, source node), whatever
    the source node is. *)
Lemma client_handshake_adds_route E dm hdr0 is_payload hdr p rest s :
  complete_frame E dm hdr0 is_payload = Some (hdr, Some p) →
  operation hdr = client_handshake →
  routing.lookup_hdl (tbl_ s) (source_node hdr) = None →
  bd_string E p = Some (middleman_app_identifier E, rest) →
  handle E dm hdr0 is_payload s =
    Some ((await_header, hdr),
          add_log [Callee (callee.learned_new_node_directly (source_node hdr))]
            (set_tbl (routing.add (tbl_ s) (conn_hdl (handle_of dm))
                                  (source_node hdr)) s)).
Proof.
  intros Hframe Hop Hfresh Happ.
  rewrite (handle_complete_frame _ _ _ _ _ _ _ Hframe).
  unfold handle_frame, needs_forwarding, is_handshake.
  unfold mbind at 1, M_bind at 1, get. rewrite Hop. simpl.
  unfold handle_client_handshake.
  unfold mbind at 1, M_bind at 1, get. rewrite Hfresh.
  rewrite (complete_frame_payload_valid _ _ _ _ _ _ Hframe), Happ.
  rewrite bool_decide_false by naive_solver.
  by run.
Qed.

(** C4 (the failing input) -- on a fresh instance, a client handshake
    whose source node is this node, carrying this application's
    identifier, is accepted: the handler returns [await_header] and the
    routing table now holds a direct route for [this_node]. *)
Theorem client_handshake_from_self_is_routed :
  ∃ s',
    handle demo.codec demo.greeting_on_3
           demo.client_hello_from_self true demo.fresh
      = Some ((await_header, demo.client_hello_from_self), s')
    ∧ source_node demo.client_hello_from_self = this_node_ demo.fresh
    ∧ routing.lookup_hdl (tbl_ demo.fresh) (this_node_ demo.fresh) = None
    ∧ routing.lookup_hdl (tbl_ s') (this_node_ s') = Some (conn_hdl 3%N)
    ∧ log s' = [Callee (callee.learned_new_node_directly demo.this_node)].
Proof.
  eexists. split.
  - by apply (client_handshake_adds_route demo.codec _ _ true _
                demo.greeting []).
  - split_and!; reflexivity.
Qed.

(** C5 (as stated, refuted) -- a [udp_server_handshake] frame arriving on
    the stream channel that carries the route of [n1] is not ignored: the
    handler returns [close_connection], the route is gone and the callee
    was told to purge [n1]. *)
Lemma udp_handshake_not_ignored :
  (∃ s',
     handle demo.codec demo.hello_on_7 demo.udp_hello true demo.routed
       = Some ((close_connection, demo.udp_hello), s')
     ∧ routing.lookup_hdl (tbl_ demo.routed) demo.n1 = Some (conn_hdl 7%N)
     ∧ routing.lookup_hdl (tbl_ s') demo.n1 = None
     ∧ log s' = [Callee (callee.purge_state demo.n1)])
  ∧ ¬ (∃ s',
         handle demo.codec demo.hello_on_7 demo.udp_hello true demo.routed
           = Some ((await_header, demo.udp_hello), s')
         ∧ tbl_ s' = tbl_ demo.routed
         ∧ log s' = log demo.routed).
Proof.
  assert (handle demo.codec demo.hello_on_7 demo.udp_hello true demo.routed
          = Some ((close_connection, demo.udp_hello),
                  closed (conn_hdl 7%N) demo.routed)) as Hrun.
  { unfold handle. rewrite bool_decide_false by (by vm_compute).
    unfold handle_frame. by run. }
  split.
  - eexists. split; [exact Hrun|]. by vm_compute.
  - intros (s' & Hignored & _). rewrite Hrun in Hignored. discriminate.
Qed.

(** ** The theorems at work on the demo codec *)

Lemma routed_consistent : routing.consistent (tbl_ demo.routed).
Proof. apply (bool_decide_unpack _). vm_compute. exact I. Defined.

Lemma handle_header_phase_witness :
  (∃ s',
     handle demo.codec demo.nothing_on_7 demo.blank false demo.routed
       = Some ((close_connection, demo.blank), s')
     ∧ log s' = [Callee (callee.purge_state demo.n1)]
     ∧ routing.lookup_node (tbl_ s') (conn_hdl 7%N) = none)
  ∧ handle demo.codec demo.header_on_7 demo.blank false demo.routed
      = Some ((await_payload, demo.announced), demo.routed).
Proof.
  split.
  - destruct (handle_header_phase demo.codec demo.nothing_on_7 demo.blank
                demo.routed demo.blank true eq_refl routed_consistent)
      as [Hclose _].
    destruct (Hclose (or_introl eq_refl))
      as (s' & Hrun & _ & Hlog & Hnode & _).
    exists s'. split_and!; [exact Hrun | exact Hlog | exact Hnode].
  - destruct (handle_header_phase demo.codec demo.header_on_7 demo.blank
                demo.routed demo.announced false eq_refl routed_consistent)
      as [_ Hawait].
    apply Hawait; reflexivity.
Defined.

Lemma forward_with_route_witness :
  ∃ s',
    handle demo.codec demo.parcel_on_7 demo.to_n2 true demo.routed2
      = Some ((await_header, demo.to_n2), s')
    ∧ wr_buf s' (conn_hdl 8%N) = [x02; x03; x02; x01; x02]
    ∧ log s' = [Flush (conn_hdl 8%N);
                Notify (hook.message_forwarded demo.to_n2
                          (Some demo.parcel))].
Proof.
  destruct (forward_with_route demo.codec demo.parcel_on_7 demo.to_n2 true
              demo.to_n2 (Some demo.parcel) demo.routed2
              (Endpoint (conn_hdl 8%N) demo.n2))
    as (s' & Hrun & Hbuf & _ & Hlog & _);
    [reflexivity | reflexivity | reflexivity | discriminate
    | vm_compute; reflexivity | reflexivity |].
  exists s'. split_and!; [exact Hrun | exact Hbuf | exact Hlog].
Defined.

Lemma forward_without_route_witness :
  ∃ s',
    handle demo.codec demo.parcel_on_7 demo.to_n2 true demo.routed
      = Some ((await_header, demo.to_n2), s')
    ∧ log s' = [Notify (hook.message_forwarding_failed demo.to_n2
                          (Some demo.parcel))]
    ∧ wr_bufs s' = wr_bufs demo.routed
    ∧ tbl_ s' = tbl_ demo.routed.
Proof.
  destruct (forward_without_route demo.codec demo.parcel_on_7 demo.to_n2 true
              demo.to_n2 (Some demo.parcel) demo.routed)
    as (s' & Hrun & Hlog & Hbufs & Htbl & _);
    [reflexivity | reflexivity | reflexivity | discriminate
    | vm_compute; reflexivity |].
  exists s'. split_and!; [exact Hrun | exact Hlog | exact Hbufs | exact Htbl].
Defined.

Lemma server_handshake_from_fresh_node_witness :
  ∃ s',
    handle demo.codec demo.hello_on_3 demo.server_hello true demo.fresh
      = Some ((await_header, demo.server_hello), s')
    ∧ routing.lookup (tbl_ s') demo.n1
        = Some (Endpoint (conn_hdl 3%N) demo.n1)
    ∧ wr_buf s' (conn_hdl 3%N) = [x01; x05] ++ demo.greeting
    ∧ log s' = [Callee (callee.learned_new_node_directly demo.n1);
                Callee (callee.finalize_handshake demo.n1 42%N ∅);
                Flush (conn_hdl 3%N)].
Proof.
  destruct (server_handshake_from_fresh_node demo.codec demo.hello_on_3
              demo.server_hello true demo.server_hello demo.hello
              [x2a] [] 42%N ∅ demo.fresh)
    as (s' & Hrun & _ & Hroute & _ & _ & _ & Hbuf & _ & Hlog);
    [reflexivity | reflexivity | discriminate | reflexivity | reflexivity
    | reflexivity | vm_compute; discriminate |].
  exists s'. split_and!; [exact Hrun | exact Hroute | | exact Hlog].
  apply Hbuf. reflexivity.
Defined.

Lemma stream_rejects_udp_handshake_witness :
  ∃ s',
    handle demo.codec demo.hello_on_7 demo.udp_hello true demo.routed
      = Some ((close_connection, demo.udp_hello), s')
    ∧ log s' = [Callee (callee.purge_state demo.n1)]
    ∧ routing.lookup_node (tbl_ s') (conn_hdl 7%N) = none.
Proof.
  destruct (stream_rejects_udp_handshake demo.codec demo.hello_on_7
              demo.udp_hello true demo.udp_hello (Some demo.hello)
              demo.routed)
    as (s' & Hrun & _ & Hlog & Hnode & _);
    [reflexivity | left; reflexivity |].
  exists s'. split_and!; [exact Hrun | exact Hlog | exact Hnode].
Defined.

Lemma dispatch_spec_witness :
  (∃ s',
     dispatch demo.codec None [] (Some demo.peer) (from_integer_value 17)
              demo.note demo.routed = Some (false, s')
     ∧ log s' = [Notify (hook.message_sending_failed None (Some demo.peer)
                           (from_integer_value 17) demo.note)]
     ∧ wr_bufs s' = wr_bufs demo.routed)
  ∧ (∃ s',
       dispatch demo.codec None [] (Some demo.peer) (from_integer_value 17)
                demo.note demo.routed2 = Some (true, s')
       ∧ wr_buf s' (conn_hdl 8%N) = [x02; x03] ++ demo.parcel
       ∧ log s' = [Flush (conn_hdl 8%N);
                   Notify (hook.message_sent None demo.n2 (Some demo.peer)
                             (from_integer_value 17) demo.note)]).
Proof.
  split.
  - destruct (dispatch_spec demo.codec None [] demo.peer
                (from_integer_value 17) demo.note demo.routed)
      as [Hfail _]; [discriminate|].
    destruct Hfail as (s' & Hrun & Hlog & Hbufs & _);
      [vm_compute; reflexivity|].
    exists s'. split_and!; [exact Hrun | exact Hlog | exact Hbufs].
  - destruct (dispatch_spec demo.codec None [] demo.peer
                (from_integer_value 17) demo.note demo.routed2)
      as [_ Hsent]; [discriminate|].
    destruct (Hsent (Endpoint (conn_hdl 8%N) demo.n2))
      as (s' & hdr & Hrun & Hop & Hdata & Hlen & _ & _ & _ & Hbuf & _ & Hlog & _);
      [vm_compute; reflexivity | vm_compute; discriminate |].
    exists s'. split_and!; [exact Hrun | | exact Hlog].
    etrans; [exact (Hbuf eq_refl)|].
    simpl. unfold demo.bs_header. rewrite Hop, Hlen. reflexivity.
Defined.

Lemma write_with_payload_writer_witness :
  write demo.codec [x07] demo.to_n2 (Some (demo.sink_stack_msg [] demo.note))
    = Some ([x07] ++ [x02; x03] ++ demo.parcel, demo.to_n2)
  ∧ payload_len demo.to_n2 = N.of_nat (length demo.parcel).
Proof.
  destruct (write_with_payload_writer demo.codec [x07] demo.to_n2
              (demo.sink_stack_msg [] demo.note))
    as [Hfits _].
  destruct Hfits as (b' & Hrun & _ & _ & _ & _ & _ & Hlayout);
    [vm_compute; discriminate|].
  split; [|reflexivity].
  etrans; [exact Hrun|]. rewrite (Hlayout eq_refl). reflexivity.
Defined.

Lemma handle_node_shutdown_spec_witness :
  handle_node_shutdown none demo.routed = Some ((), demo.routed)
  ∧ ∃ s',
      handle_node_shutdown demo.n1 demo.routed = Some ((), s')
      ∧ log s' = [Callee (callee.purge_state demo.n1)]
      ∧ routing.lookup (tbl_ s') demo.n1 = None.
Proof.
  destruct (handle_node_shutdown_spec demo.routed demo.n1 routed_consistent)
    as [Hnone Hnode].
  split; [exact Hnone|].
  destruct Hnode as (s' & Hrun & _ & Hlog & _ & Hroute & _); [discriminate|].
  exists s'. split_and!; [exact Hrun | exact Hlog | by apply Hroute].
Defined.

Lemma remove_published_actor_spec_witness :
  (∃ s',
     remove_published_actor (Some demo.worker) 0 true demo.publishing
       = Some (2, s')
     ∧ published_actors_ s' = [(81%N, (Some demo.helper, ∅))]
     ∧ log s' = [Removed (Some demo.worker) 80; Removed (Some demo.worker) 82])
  ∧ (∃ s',
       remove_published_actor (Some demo.worker) 80 true demo.publishing
         = Some (1, s')
       ∧ published_actors_ s' =
           [(81%N, (Some demo.helper, ∅)); (82%N, (Some demo.worker, ∅))]
       ∧ log s' = [Removed (Some demo.worker) 80])
  ∧ remove_published_actor (Some demo.worker) 81 true demo.publishing
      = Some (0, demo.publishing).
Proof.
  split_and!.
  - destruct (remove_published_actor_spec (Some demo.worker) 0 true
                demo.publishing) as [Hall _].
    destruct (Hall eq_refl) as (s' & Hrun & Hkept & Hlog & _).
    exists s'. split_and!; [exact Hrun | exact Hkept | exact Hlog].
  - destruct (remove_published_actor_spec (Some demo.worker) 80 true
                demo.publishing) as [_ Hone].
    destruct Hone as (s' & result & Hrun & _ & Hhit & _); [discriminate|].
    destruct (Hhit (Some demo.worker, ∅) eq_refl eq_refl)
      as (-> & Hkept & _ & Hlog).
    exists s'. split_and!; [exact Hrun | exact Hkept | exact Hlog].
  - destruct (remove_published_actor_spec (Some demo.worker) 81 true
                demo.publishing) as [_ Hone].
    destruct Hone as (s' & result & Hrun & _ & _ & Hmiss); [discriminate|].
    destruct Hmiss as [-> ->]; [|exact Hrun].
    intros pa [= <-]. discriminate.
Defined.

(** ** More on the stream handler *)

Lemma handle_frame_local E dm hdr payload s :
  needs_forwarding s hdr = false →
  handle_frame E dm hdr payload s =
    match operation hdr with
    | server_handshake => handle_server_handshake E dm hdr payload
    | client_handshake => handle_client_handshake E dm hdr payload
    | dispatch_message => handle_dispatch_message E dm hdr payload
    | announce_proxy =>
        call (callee.proxy_announced (source_node hdr) (dest_actor hdr));;
        mret await_header
    | kill_proxy => handle_kill_proxy E dm hdr payload
    | heartbeat =>
        call (callee.handle_heartbeat (source_node hdr));;
        mret await_header
    | _ => err dm
    end s.
Proof. intros Hlocal. unfold handle_frame. run. by rewrite Hlocal. Qed.

Lemma write_client_handshake_run E s b n :
  let app_id := ser_bytes (sink_string E (middleman_app_identifier E)) in
  (N.of_nat (length app_id) ≤ uint32_max)%N →
  write_client_handshake E s b n =
    Some (b ++ patched E (Header client_handshake 0 (N.of_nat (length app_id))
                                 0 (this_node_ s) n invalid_actor_id
                                 invalid_actor_id)
            ++ app_id).
Proof.
  intros app_id Hfit. unfold write_client_handshake.
  by rewrite write_payload_run.
Qed.

(** Case analysis over every path of a handler. *)
Ltac all_paths :=
  repeat (first
    [ case_match
    | match goal with
      | H : _ ≫= _ = Some _ |- _ => apply bind_Some in H as (? & ? & ?)
      end ];
    simplify_eq; simpl in * ).

Ltac unfold_handle :=
  unfold handle, handle_frame, forward, handle_server_handshake,
    handle_client_handshake, handle_dispatch_message, handle_kill_proxy, err;
  unfold call, notify, flush;
  unfold mbind, M_bind, mret, M_ret, get, modify, on_wr_buf; simpl.

(** X1 -- whenever the stream handler returns [close_connection], no row
    of the routing table is bound to the handle any more: the handle maps
    to no node and, in a consistent table, no node maps to the handle. *)
Theorem close_connection_unbinds E dm hdr is_payload s hdr' s' :
  handle E dm hdr is_payload s = Some ((close_connection, hdr'), s') →
  routing.lookup_node (tbl_ s') (conn_hdl (handle_of dm)) = none
  ∧ (routing.consistent (tbl_ s) →
     ∀ n, routing.lookup_hdl (tbl_ s') n ≠ Some (conn_hdl (handle_of dm))).
Proof.
  intros Hrun. revert Hrun. unfold_handle. intros Hrun.
  all_paths;
    (split; [apply erase_hdl_unbinds|]; intros Hc n;
     apply erase_hdl_no_route; simpl; auto using add_consistent).
Qed.

Lemma close_connection_unbinds_witness :
  routing.lookup_node (tbl_ (closed (conn_hdl 7%N) demo.routed)) (conn_hdl 7%N)
    = none
  ∧ ∀ n, routing.lookup_hdl (tbl_ (closed (conn_hdl 7%N) demo.routed)) n
         ≠ Some (conn_hdl 7%N).
Proof.
  destruct (close_connection_unbinds demo.codec demo.nothing_on_7 demo.blank
              false demo.routed demo.blank
              (closed (conn_hdl 7%N) demo.routed) eq_refl)
    as [Hnode Hhdl].
  split; [exact Hnode | exact (Hhdl routed_consistent)].
Defined.

Lemma purge_calls_cleanup (lost : list node_id) :
  Forall (λ e, is_cleanup e = true) (Callee ∘ callee.purge_state <$> lost).
Proof. apply Forall_fmap. by apply Forall_true. Qed.

(** X2 -- a call of the stream handler that ends in [close_connection]
    delivers nothing: all it adds to the log are [purge_state] and
    [finalize_handshake] calls; no message, proxy event or heartbeat
    reaches the callee, no hook fires and nothing is flushed. *)
Theorem close_connection_delivers_nothing E dm hdr is_payload s hdr' s' :
  handle E dm hdr is_payload s = Some ((close_connection, hdr'), s') →
  ∃ es, log s' = log s ++ es ∧ Forall (λ e, is_cleanup e = true) es.
Proof.
  intros Hrun. revert Hrun. unfold_handle. intros Hrun.
  all_paths; rewrite <-?app_assoc; (eexists; split; [reflexivity|]);
    rewrite ?Forall_app, ?Forall_cons;
    repeat split; auto using purge_calls_cleanup.
Qed.

Lemma close_connection_delivers_nothing_witness :
  ∃ es, log (closed (conn_hdl 7%N) demo.routed) = log demo.routed ++ es
        ∧ Forall (λ e, is_cleanup e = true) es.
Proof.
  exact (close_connection_delivers_nothing demo.codec demo.nothing_on_7
           demo.blank false demo.routed demo.blank
           (closed (conn_hdl 7%N) demo.routed) eq_refl).
Defined.

(** X3 -- the stream handler never changes the node identity of the
    instance nor its published actors, and its log only grows.  When it
    answers [await_payload] it was called in the header phase, the header
    announces a payload, and nothing at all has changed. *)
Theorem handle_frame_conditions E dm hdr is_payload s st hdr' s' :
  handle E dm hdr is_payload s = Some ((st, hdr'), s') →
  this_node_ s' = this_node_ s
  ∧ published_actors_ s' = published_actors_ s
  ∧ (∃ es, log s' = log s ++ es)
  ∧ (st = await_payload →
     s' = s ∧ is_payload = false ∧ (0 < payload_len hdr')%N).
Proof.
  intros Hrun. revert Hrun. unfold_handle. intros Hrun.
  all_paths; split_and!; try done;
    try (rewrite <-?app_assoc; eexists; reflexivity);
    try (by exists []; rewrite app_nil_r).
  intros _. split_and!; try done. by apply N.ltb_lt.
Qed.

Lemma handle_frame_conditions_witness :
  this_node_ demo.routed = demo.this_node
  ∧ (0 < payload_len demo.announced)%N.
Proof.
  destruct (handle_frame_conditions demo.codec demo.header_on_7 demo.blank
              false demo.routed await_payload demo.announced demo.routed
              eq_refl)
    as (Hnode & _ & _ & Hawait).
  destruct (Hawait eq_refl) as (_ & _ & Hlen).
  split; [exact Hnode | exact Hlen].
Defined.

(** X4 -- the only assertion the stream handler can trip is the one on
    the length of the handshake reply: when the serialized application
    identifier fits in 32 bits, every call returns. *)
Theorem handle_returns E dm hdr is_payload s :
  (N.of_nat (length (ser_bytes (sink_string E (middleman_app_identifier E))))
   ≤ uint32_max)%N →
  ∃ st hdr' s', handle E dm hdr is_payload s = Some ((st, hdr'), s').
Proof.
  intros Hfit. unfold_handle.
  repeat (first [rewrite write_client_handshake_run by done | case_match];
          simplify_eq; simpl);
    eauto.
  match goal with
  | H : write_client_handshake _ _ _ _ ≫= _ = None |- _ =>
      by rewrite write_client_handshake_run in H
  end.
Qed.

Lemma handle_returns_witness :
  ∃ st hdr' s',
    handle demo.codec demo.hello_on_3 demo.server_hello true demo.fresh
      = Some ((st, hdr'), s').
Proof.
  apply (handle_returns demo.codec demo.hello_on_3 demo.server_hello true
           demo.fresh).
  vm_compute. discriminate.
Defined.

Lemma handshake_not_forwarded s hdr :
  is_handshake hdr = true → needs_forwarding s hdr = false.
Proof. unfold needs_forwarding. by intros ->. Qed.

Lemma heartbeat_not_forwarded s hdr :
  is_heartbeat hdr = true → needs_forwarding s hdr = false.
Proof. unfold needs_forwarding. intros ->. by rewrite andb_false_r. Qed.

Lemma addressed_not_forwarded s hdr :
  dest_node hdr = this_node_ s → needs_forwarding s hdr = false.
Proof.
  unfold needs_forwarding. intros ->.
  rewrite bool_decide_false by naive_solver. apply andb_false_r.
Qed.

(** A complete frame that is not forwarded goes through the switch. *)
Lemma handle_local E dm hdr0 is_payload hdr payload s :
  complete_frame E dm hdr0 is_payload = Some (hdr, payload) →
  needs_forwarding s hdr = false →
  handle E dm hdr0 is_payload s =
    match
      match operation hdr with
      | server_handshake => handle_server_handshake E dm hdr payload
      | client_handshake => handle_client_handshake E dm hdr payload
      | dispatch_message => handle_dispatch_message E dm hdr payload
      | announce_proxy =>
          call (callee.proxy_announced (source_node hdr) (dest_actor hdr));;
          mret await_header
      | kill_proxy => handle_kill_proxy E dm hdr payload
      | heartbeat =>
          call (callee.handle_heartbeat (source_node hdr));;
          mret await_header
      | _ => err dm
      end s
    with
    | Some (st, s') => Some ((st, hdr), s')
    | None => None
    end.
Proof.
  intros Hframe Hlocal.
  rewrite (handle_complete_frame _ _ _ _ _ _ _ Hframe).
  by rewrite handle_frame_local.
Qed.

Lemma complete_frame_payload E dm hdr0 is_payload hdr payload :
  complete_frame E dm hdr0 is_payload = Some (hdr, payload) →
  payload_valid hdr payload = payload.
Proof.
  destruct payload as [p|]; [|done].
  apply complete_frame_payload_valid.
Qed.

Lemma closed_unrouted h s :
  direct_by_hdl_ (tbl_ s) !! h = None → closed h s = s.
Proof.
  intros Hh. unfold closed, routing.erase_hdl. rewrite Hh. simpl.
  destruct s. unfold add_log, set_tbl. simpl. by rewrite app_nil_r.
Qed.

(** X5 -- a stream handshake is turned down before the callee hears of
    it: a server handshake, or a client handshake from a node without a
    direct route, whose payload is missing, does not decode, or names
    another application closes the connection with the cleanup of the
    handle alone; if the handle carried no route, the instance is exactly
    as before. *)
Theorem handshake_rejected E dm hdr0 is_payload hdr payload s :
  complete_frame E dm hdr0 is_payload = Some (hdr, payload) →
  operation hdr = server_handshake
  ∨ (operation hdr = client_handshake
     ∧ routing.lookup_hdl (tbl_ s) (source_node hdr) = None) →
  payload = None
  ∨ (∃ p, payload = Some p
          ∧ (bd_string E p = None
             ∨ ∃ app_id rest, bd_string E p = Some (app_id, rest)
                              ∧ app_id ≠ middleman_app_identifier E)) →
  let h := conn_hdl (handle_of dm) in
  handle E dm hdr0 is_payload s = Some ((close_connection, hdr), closed h s)
  ∧ (direct_by_hdl_ (tbl_ s) !! h = None → closed h s = s).
Proof.
  intros Hframe Hop Hbad h. split; [|apply closed_unrouted].
  rewrite (handle_local _ _ _ _ _ _ _ Hframe)
    by (apply handshake_not_forwarded; unfold is_handshake;
        by destruct Hop as [-> | [-> _]]).
  assert (match payload_valid hdr payload with
          | None => True
          | Some p => bd_string E p = None
                      ∨ ∃ app_id rest, bd_string E p = Some (app_id, rest)
                                       ∧ app_id ≠ middleman_app_identifier E
          end) as Hp.
  { rewrite (complete_frame_payload _ _ _ _ _ _ Hframe).
    destruct Hbad as [-> | (p & -> & Hp)]; done. }
  destruct Hop as [-> | [-> Hfresh]];
    unfold handle_server_handshake, handle_client_handshake; run;
    rewrite ?Hfresh;
    destruct (payload_valid hdr payload) as [p|]; try done;
    destruct Hp as [-> | (app_id & rest & -> & Hne)]; try done;
    by rewrite bool_decide_true.
Qed.

Lemma handshake_rejected_witness :
  handle demo.codec sample.foreign_on_3 sample.foreign_hello true demo.fresh
    = Some ((close_connection, sample.foreign_hello),
            closed (conn_hdl 3%N) demo.fresh)
  ∧ closed (conn_hdl 3%N) demo.fresh = demo.fresh.
Proof.
  destruct (handshake_rejected demo.codec sample.foreign_on_3
              sample.foreign_hello true sample.foreign_hello
              (Some sample.foreign) demo.fresh)
    as [Hrun Hsame].
  - reflexivity.
  - left. reflexivity.
  - right. exists sample.foreign. split; [reflexivity|].
    right. exists "yours", [x2a]. split; [reflexivity | discriminate].
  - split; [exact Hrun | apply Hsame; reflexivity].
Defined.

(** X6 -- a server handshake that comes from this node itself: the callee
    finalizes the handshake once, the connection is closed, and no route
    to this node appears; if the handle carried no route, the routing
    table is as before. *)
Theorem self_connection_closes
    E dm hdr0 is_payload hdr p rest rest' aid sigs s :
  complete_frame E dm hdr0 is_payload = Some (hdr, Some p) →
  operation hdr = server_handshake →
  source_node hdr = this_node_ s →
  bd_string E p = Some (middleman_app_identifier E, rest) →
  bd_aid_sigs E rest = Some (aid, sigs, rest') →
  let h := conn_hdl (handle_of dm) in
  ∃ s',
    handle E dm hdr0 is_payload s = Some ((close_connection, hdr), s')
    ∧ log s' = log s ++
        Callee (callee.finalize_handshake (this_node_ s) aid sigs)
        :: (Callee ∘ callee.purge_state <$> (routing.erase_hdl (tbl_ s) h).2)
    ∧ tbl_ s' = (routing.erase_hdl (tbl_ s) h).1
    ∧ (routing.lookup_hdl (tbl_ s) (this_node_ s) = None →
       routing.lookup_hdl (tbl_ s') (this_node_ s) = None)
    ∧ (direct_by_hdl_ (tbl_ s) !! h = None → tbl_ s' = tbl_ s)
    ∧ wr_bufs s' = wr_bufs s.
Proof.
  intros Hframe Hop Hself Happ Hsigs h.
  rewrite (server_handshake_from_self _ _ _ _ _ _ _ _ _ _ _
             Hframe Hop Hself Happ Hsigs).
  eexists. split; [reflexivity|]. unfold closed; simpl. fold h.
  rewrite Hself. split_and!; try done.
  - by rewrite <-app_assoc.
  - unfold routing.lookup_hdl, routing.erase_hdl.
    destruct (direct_by_hdl_ (tbl_ s) !! h) as [n|]; simpl; [|done].
    intros Hnone. destruct (decide (n = this_node_ s)) as [->|Hne].
    + by rewrite lookup_delete_eq.
    + by rewrite lookup_delete_ne.
  - intros Hh. unfold routing.erase_hdl. by rewrite Hh.
Qed.

Lemma self_connection_closes_witness :
  ∃ s',
    handle demo.codec demo.hello_on_3 sample.self_hello true demo.fresh
      = Some ((close_connection, sample.self_hello), s')
    ∧ log s' = [Callee (callee.finalize_handshake demo.this_node 42%N ∅)]
    ∧ tbl_ s' = tbl_ demo.fresh.
Proof.
  destruct (self_connection_closes demo.codec demo.hello_on_3
              sample.self_hello true sample.self_hello demo.hello
              [x2a] [] 42%N ∅ demo.fresh)
    as (s' & Hrun & Hlog & _ & _ & Htbl & _);
    [reflexivity | reflexivity | reflexivity | reflexivity | reflexivity |].
  exists s'. split_and!; [exact Hrun | exact Hlog | apply Htbl; reflexivity].
Defined.

(** X7 -- a server handshake from a node that already has a direct route:
    the callee finalizes the handshake and the connection the handshake
    came in on is closed.  In a consistent table the established route
    stays when it runs over another handle, and is torn down, with
    [purge_state] for the node, when the handshake was repeated on the
    established connection itself. *)
Theorem duplicate_connection_closes
    E dm hdr0 is_payload hdr p rest rest' aid sigs s h0 :
  complete_frame E dm hdr0 is_payload = Some (hdr, Some p) →
  operation hdr = server_handshake →
  source_node hdr ≠ this_node_ s →
  routing.lookup_hdl (tbl_ s) (source_node hdr) = Some h0 →
  bd_string E p = Some (middleman_app_identifier E, rest) →
  bd_aid_sigs E rest = Some (aid, sigs, rest') →
  routing.consistent (tbl_ s) →
  let h := conn_hdl (handle_of dm) in
  let n := source_node hdr in
  ∃ s',
    handle E dm hdr0 is_payload s = Some ((close_connection, hdr), s')
    ∧ log s' = log s ++
        Callee (callee.finalize_handshake n aid sigs)
        :: (Callee ∘ callee.purge_state <$> (routing.erase_hdl (tbl_ s) h).2)
    ∧ (h0 ≠ h → routing.lookup_hdl (tbl_ s') n = Some h0)
    ∧ (h0 = h →
       routing.lookup_hdl (tbl_ s') n = None
       ∧ Callee (callee.purge_state n) ∈ log s')
    ∧ wr_bufs s' = wr_bufs s.
Proof.
  intros Hframe Hop Hself Hdup Happ Hsigs Hc h n.
  rewrite (handle_local _ _ _ _ _ _ _ Hframe)
    by (apply handshake_not_forwarded; unfold is_handshake; by rewrite Hop).
  rewrite Hop. unfold handle_server_handshake.
  rewrite (complete_frame_payload_valid _ _ _ _ _ _ Hframe), Happ.
  rewrite bool_decide_false by naive_solver. rewrite Hsigs. run.
  rewrite bool_decide_false by done. rewrite Hdup. simpl.
  eexists. split; [reflexivity|]. simpl. fold h n.
  rewrite consistent_iff in Hc.
  split_and!; try done.
  - by rewrite <-app_assoc.
  - intros Hne. unfold routing.lookup_hdl, routing.erase_hdl.
    destruct (direct_by_hdl_ (tbl_ s) !! h) as [n'|] eqn:Hh; simpl; [|done].
    rewrite lookup_delete_ne; [done|].
    intros ->. apply Hc in Hh. unfold routing.lookup_hdl, n in *. congruence.
  - intros ->. apply Hc in Hdup as Hh.
    unfold routing.lookup_hdl, routing.erase_hdl. rewrite Hh. simpl.
    split; [by rewrite lookup_delete_eq|].
    apply elem_of_app. right. left.
Qed.

Lemma duplicate_connection_closes_witness :
  ∃ s',
    handle demo.codec demo.hello_on_3 demo.server_hello true demo.routed
      = Some ((close_connection, demo.server_hello), s')
    ∧ log s' = [Callee (callee.finalize_handshake demo.n1 42%N ∅)]
    ∧ routing.lookup_hdl (tbl_ s') demo.n1 = Some (conn_hdl 7%N).
Proof.
  destruct (duplicate_connection_closes demo.codec demo.hello_on_3
              demo.server_hello true demo.server_hello demo.hello
              [x2a] [] 42%N ∅ demo.routed (conn_hdl 7%N))
    as (s' & Hrun & Hlog & Hkept & _);
    [reflexivity | reflexivity | discriminate | reflexivity | reflexivity
    | reflexivity | exact routed_consistent |].
  exists s'. split_and!; [exact Hrun | exact Hlog | apply Hkept; discriminate].
Defined.

(** X8 -- a client handshake from a node that already has a direct route
    is ignored, whatever its payload is: the handler returns
    [await_header] and the instance is exactly as before. *)
Theorem second_client_handshake_ignored
    E dm hdr0 is_payload hdr payload s h0 :
  complete_frame E dm hdr0 is_payload = Some (hdr, payload) →
  operation hdr = client_handshake →
  routing.lookup_hdl (tbl_ s) (source_node hdr) = Some h0 →
  handle E dm hdr0 is_payload s = Some ((await_header, hdr), s).
Proof.
  intros Hframe Hop Hknown.
  rewrite (handle_local _ _ _ _ _ _ _ Hframe)
    by (apply handshake_not_forwarded; unfold is_handshake; by rewrite Hop).
  rewrite Hop. unfold handle_client_handshake. run. by rewrite Hknown.
Qed.

Lemma second_client_handshake_ignored_witness :
  handle demo.codec demo.greeting_on_3 sample.greet_hdr true demo.routed
    = Some ((await_header, sample.greet_hdr), demo.routed).
Proof.
  apply (second_client_handshake_ignored demo.codec demo.greeting_on_3
           sample.greet_hdr true sample.greet_hdr (Some demo.greeting)
           demo.routed (conn_hdl 7%N));
    reflexivity.
Defined.

(** X9 -- a client handshake with this application's identifier from a
    node without a direct route binds the node to the handle and tells the
    callee [learned_new_node_directly]; unlike the server handshake it is
    not answered: no write buffer changes and nothing is flushed. *)
Theorem client_handshake_accepted E dm hdr0 is_payload hdr p rest s :
  complete_frame E dm hdr0 is_payload = Some (hdr, Some p) →
  operation hdr = client_handshake →
  routing.lookup_hdl (tbl_ s) (source_node hdr) = None →
  bd_string E p = Some (middleman_app_identifier E, rest) →
  let h := conn_hdl (handle_of dm) in
  let n := source_node hdr in
  ∃ s',
    handle E dm hdr0 is_payload s = Some ((await_header, hdr), s')
    ∧ routing.lookup (tbl_ s') n = Some (Endpoint h n)
    ∧ routing.lookup_node (tbl_ s') h = n
    ∧ log s' = log s ++ [Callee (callee.learned_new_node_directly n)]
    ∧ wr_bufs s' = wr_bufs s.
Proof.
  intros Hframe Hop Hfresh Happ h n.
  rewrite (client_handshake_adds_route _ _ _ _ _ _ _ _
             Hframe Hop Hfresh Happ).
  eexists. split; [reflexivity|]. simpl. fold h n.
  split_and!; try done.
  - apply lookup_add.
  - apply lookup_node_add.
Qed.

Lemma client_handshake_accepted_witness :
  ∃ s',
    handle demo.codec demo.greeting_on_3 sample.greet_hdr true demo.fresh
      = Some ((await_header, sample.greet_hdr), s')
    ∧ routing.lookup (tbl_ s') demo.n1
        = Some (Endpoint (conn_hdl 3%N) demo.n1)
    ∧ log s' = [Callee (callee.learned_new_node_directly demo.n1)]
    ∧ wr_bufs s' = ∅.
Proof.
  destruct (client_handshake_accepted demo.codec demo.greeting_on_3
              sample.greet_hdr true sample.greet_hdr demo.greeting []
              demo.fresh)
    as (s' & Hrun & Hroute & _ & Hlog & Hbufs);
    [reflexivity | reflexivity | reflexivity | reflexivity |].
  exists s'. split_and!; [exact Hrun | exact Hroute | exact Hlog | exact Hbufs].
Defined.

(** X10 -- a [dispatch_message] frame addressed to this node is handed to
    the callee with the message id rebuilt from [operation_data]: by actor
    id ([dest_actor]) when the named-receiver flag is clear, and by the
    receiver name read from the front of the payload when it is set.
    Nothing else happens. *)
Theorem dispatch_message_delivered
    E dm hdr0 is_payload hdr p s stack msg rest :
  complete_frame E dm hdr0 is_payload = Some (hdr, Some p) →
  operation hdr = dispatch_message →
  dest_node hdr = this_node_ s →
  let mid := from_integer_value (operation_data hdr) in
  (has hdr named_receiver_flag = false →
   bd_stack_msg E p = Some (stack, msg, rest) →
   handle E dm hdr0 is_payload s =
     Some ((await_header, hdr),
           add_log [Callee (callee.deliver (source_node hdr) (source_actor hdr)
                              (dest_actor hdr) mid stack msg)] s))
  ∧ (∀ name named_rest,
     has hdr named_receiver_flag = true →
     bd_atom E p = Some (name, named_rest) →
     bd_stack_msg E named_rest = Some (stack, msg, rest) →
     handle E dm hdr0 is_payload s =
       Some ((await_header, hdr),
             add_log [Callee (callee.deliver_named (source_node hdr)
                                (source_actor hdr) name mid stack msg)] s)).
Proof.
  intros Hframe Hop Hdest mid.
  rewrite (handle_local _ _ _ _ _ _ _ Hframe)
    by by apply addressed_not_forwarded.
  rewrite Hop. unfold handle_dispatch_message.
  rewrite (complete_frame_payload_valid _ _ _ _ _ _ Hframe).
  split.
  - intros -> Hmsg. by rewrite Hmsg.
  - intros name named_rest -> Hname Hmsg. by rewrite Hname, Hmsg.
Qed.

Lemma dispatch_message_delivered_witness :
  handle demo.codec demo.parcel_on_7 sample.note_hdr true demo.routed
    = Some ((await_header, sample.note_hdr),
            add_log [Callee (callee.deliver demo.n1 5%N 9%N
                               (from_integer_value 17) [] demo.note)]
                    demo.routed)
  ∧ handle demo.codec sample.named_parcel_on_7 sample.named_hdr true
      demo.routed
    = Some ((await_header, sample.named_hdr),
            add_log [Callee (callee.deliver_named demo.n1 5%N 7%N
                               (from_integer_value 17) [] demo.note)]
                    demo.routed).
Proof.
  split.
  - destruct (dispatch_message_delivered demo.codec demo.parcel_on_7
                sample.note_hdr true sample.note_hdr demo.parcel demo.routed
                [] demo.note [])
      as [Hplain _]; [reflexivity | reflexivity | reflexivity |].
    apply Hplain; reflexivity.
  - destruct (dispatch_message_delivered demo.codec sample.named_parcel_on_7
                sample.named_hdr true sample.named_hdr sample.named_parcel
                demo.routed [] demo.note [])
      as [_ Hnamed]; [reflexivity | reflexivity | reflexivity |].
    apply (Hnamed 7%N demo.parcel); reflexivity.
Defined.

(** X11 -- the two operations without payload.  An [announce_proxy] frame
    addressed to this node makes the callee's [proxy_announced] see the
    source node and the destination actor.  A heartbeat is never
    forwarded: whatever node it is addressed to, the callee's
    [handle_heartbeat] sees its source node.  Neither looks at a payload,
    and nothing else happens. *)
Theorem announce_and_heartbeat E dm hdr0 is_payload hdr payload s :
  complete_frame E dm hdr0 is_payload = Some (hdr, payload) →
  (operation hdr = announce_proxy → dest_node hdr = this_node_ s →
   handle E dm hdr0 is_payload s =
     Some ((await_header, hdr),
           add_log [Callee (callee.proxy_announced (source_node hdr)
                              (dest_actor hdr))] s))
  ∧ (operation hdr = heartbeat →
     handle E dm hdr0 is_payload s =
       Some ((await_header, hdr),
             add_log [Callee (callee.handle_heartbeat (source_node hdr))] s)).
Proof.
  intros Hframe. split.
  - intros Hop Hdest.
    rewrite (handle_local _ _ _ _ _ _ _ Hframe)
      by by apply addressed_not_forwarded.
    by rewrite Hop.
  - intros Hop.
    rewrite (handle_local _ _ _ _ _ _ _ Hframe)
      by (apply heartbeat_not_forwarded; unfold is_heartbeat; by rewrite Hop).
    by rewrite Hop.
Qed.

Lemma announce_and_heartbeat_witness :
  handle wire.codec sample.announce_on_7 demo.blank false demo.routed
    = Some ((await_header, sample.announce_hdr),
            add_log [Callee (callee.proxy_announced demo.n1 9%N)] demo.routed)
  ∧ handle wire.codec sample.beat_on_7 demo.blank false demo.routed
    = Some ((await_header, sample.beat_hdr),
            add_log [Callee (callee.handle_heartbeat demo.n1)] demo.routed).
Proof.
  split.
  - destruct (announce_and_heartbeat wire.codec sample.announce_on_7
                demo.blank false sample.announce_hdr None demo.routed)
      as [Hannounce _]; [reflexivity|].
    apply Hannounce; reflexivity.
  - destruct (announce_and_heartbeat wire.codec sample.beat_on_7
                demo.blank false sample.beat_hdr None demo.routed)
      as [_ Hbeat]; [reflexivity|].
    apply Hbeat; reflexivity.
Defined.

(** X12 -- a [kill_proxy] frame addressed to this node whose payload
    decodes to an error makes the callee's [kill_proxy] see the source
    node, the source actor and that error; a payload that does not decode
    closes the connection with the cleanup of the handle alone. *)
Theorem kill_proxy_handled E dm hdr0 is_payload hdr p s :
  complete_frame E dm hdr0 is_payload = Some (hdr, Some p) →
  operation hdr = kill_proxy →
  dest_node hdr = this_node_ s →
  (∀ fail_state rest,
     bd_error E p = Some (fail_state, rest) →
     handle E dm hdr0 is_payload s =
       Some ((await_header, hdr),
             add_log [Callee (callee.kill_proxy (source_node hdr)
                                (source_actor hdr) fail_state)] s))
  ∧ (bd_error E p = None →
     handle E dm hdr0 is_payload s =
       Some ((close_connection, hdr), closed (conn_hdl (handle_of dm)) s)).
Proof.
  intros Hframe Hop Hdest.
  rewrite (handle_local _ _ _ _ _ _ _ Hframe)
    by by apply addressed_not_forwarded.
  rewrite Hop. unfold handle_kill_proxy.
  rewrite (complete_frame_payload_valid _ _ _ _ _ _ Hframe).
  split.
  - intros fail_state rest Herr. by rewrite Herr.
  - intros Herr. by rewrite Herr.
Qed.

Lemma kill_proxy_handled_witness :
  handle demo.codec sample.reason_on_7 sample.kill_hdr true demo.routed
    = Some ((await_header, sample.kill_hdr),
            add_log [Callee (callee.kill_proxy demo.n1 5%N (Error 7))]
                    demo.routed).
Proof.
  destruct (kill_proxy_handled demo.codec sample.reason_on_7 sample.kill_hdr
              true sample.kill_hdr [x07] demo.routed)
    as [Hkill _]; [reflexivity | reflexivity | reflexivity |].
  apply (Hkill (Error 7) []). reflexivity.
Defined.

(** X13 -- a frame that needs a payload but announces none is fatal.  A
    header with [payload_len = 0] is processed in the header phase with no
    payload at hand, so a [dispatch_message] or [kill_proxy] header
    addressed to this node closes the connection, with the cleanup of the
    handle alone, whether or not [valid] lets it pass; an empty message
    is never delivered. *)
Theorem empty_payload_closes E dm hdr0 hdr s :
  bd_header E (buf dm) hdr0 = (hdr, false) →
  payload_len hdr = 0%N →
  operation hdr = dispatch_message ∨ operation hdr = kill_proxy →
  dest_node hdr = this_node_ s →
  handle E dm hdr0 false s =
    Some ((close_connection, hdr), closed (conn_hdl (handle_of dm)) s).
Proof.
  intros Hbd Hlen Hop Hdest.
  destruct (valid E hdr) eqn:Hvalid.
  - assert (complete_frame E dm hdr0 false = Some (hdr, None)) as Hframe.
    { unfold complete_frame. rewrite Hbd, Hvalid. simpl.
      by rewrite bool_decide_true. }
    rewrite (handle_local _ _ _ _ _ _ _ Hframe)
      by by apply addressed_not_forwarded.
    by destruct Hop as [-> | ->].
  - unfold handle. by rewrite Hbd, Hvalid.
Qed.

Lemma empty_payload_closes_witness :
  handle wire.codec sample.empty_on_7 demo.blank false demo.routed
    = Some ((close_connection, sample.empty_hdr),
            closed (conn_hdl 7%N) demo.routed).
Proof.
  apply (empty_payload_closes wire.codec sample.empty_on_7 demo.blank
           sample.empty_hdr demo.routed);
    [reflexivity | reflexivity | left; reflexivity | reflexivity].
Defined.

(** ** More on the frame writer *)

(** X14 -- [write] only appends.  Whatever the serializers do, a call
    that returns leaves the old content of the buffer in place as a prefix
    and changes no header field but [payload_len].  With a payload writer
    the buffer grows by exactly [header_size] plus the payload; without
    one the serialized header is appended and the header is returned as
    it was passed. *)
Theorem write_appends E b hdr pw b' hdr' :
  write E b hdr pw = Some (b', hdr') →
  b `prefix_of` b'
  ∧ hdr' = set_payload_len hdr (payload_len hdr')
  ∧ (∀ w, pw = Some w →
          length b' = length b + header_size E + length (ser_bytes w)
          ∧ payload_len hdr' = N.of_nat (length (ser_bytes w)))
  ∧ (pw = None → b' = b ++ ser_bytes (bs_header E hdr) ∧ hdr' = hdr).
Proof.
  destruct pw as [w|].
  - destruct (decide (N.of_nat (length (ser_bytes w)) ≤ uint32_max)%N)
      as [Hfit|Hbig].
    + rewrite write_payload_run by done. intros [= <- <-].
      split_and!; try done.
      * by eexists.
      * intros w' [= <-]. split; [|done].
        rewrite !length_app, patched_length. lia.
    + rewrite write_payload_overflow by lia. done.
  - unfold write. intros [= <- <-]. split_and!; try done.
    + by eexists.
    + by destruct hdr.
Qed.

Lemma write_appends_witness :
  [x05] `prefix_of` [x05; x02; x03; x02; x01; x02]
  ∧ length [x05; x02; x03; x02; x01; x02]
    = length [x05] + header_size demo.codec + length demo.parcel.
Proof.
  destruct (write_appends demo.codec [x05] demo.to_n2
              (Some (demo.sink_stack_msg [] demo.note))
              [x05; x02; x03; x02; x01; x02] demo.to_n2)
    as (Hprefix & _ & Hlen & _); [vm_compute; reflexivity|].
  split; [exact Hprefix|].
  by destruct (Hlen _ eq_refl) as [Hgrown _].
Defined.

(** A server handshake for a port nobody published an actor on is
    the handshake written for no port at all: it advertises
    [invalid_actor_id] and no interfaces.  The same holds for the UDP
    server handshake. *)
Lemma handshake_for_unpublished_port E s b port remote :
  find_port port (published_actors_ s) = None →
  write_server_handshake E s b (Some port) = write_server_handshake E s b None
  ∧ write_udp_server_handshake E s b remote (Some port)
    = write_udp_server_handshake E s b remote None.
Proof.
  intros Hport. unfold write_server_handshake, write_udp_server_handshake.
  simpl. by rewrite Hport.
Qed.

(** X15 -- when [dispatch] returns.  It trips an assertion exactly when
    the receiver is null, lives on this node, or has a route but a payload
    too long for the 32-bit length field; in every other case it returns,
    and it returns [true] exactly when there is a route to the receiver's
    node. *)
Theorem dispatch_returns E sender stack receiver mid msg s :
  let too_long :=
    (uint32_max < N.of_nat (length (ser_bytes (sink_stack_msg E stack msg))))%N
  in
  (dispatch E sender stack receiver mid msg s = None ↔
   receiver = None
   ∨ ∃ rcv, receiver = Some rcv
            ∧ (actor_node rcv = this_node_ s
               ∨ (is_Some (routing.lookup (tbl_ s) (actor_node rcv))
                  ∧ too_long)))
  ∧ (∀ sent s',
     dispatch E sender stack receiver mid msg s = Some (sent, s') →
     ∃ rcv, receiver = Some rcv
            ∧ (sent = true ↔
               is_Some (routing.lookup (tbl_ s) (actor_node rcv)))).
Proof.
  intros too_long. unfold dispatch. run.
  destruct receiver as [rcv|]; simpl; [|split; [by split; [left|]|done]].
  case_bool_decide as Hnode; simpl; last first.
  { split; [|done]. split; [|done]. intros _. right. exists rcv. eauto. }
  destruct (routing.lookup (tbl_ s) (actor_node rcv)) as [path|] eqn:Hroute.
  - destruct (decide (N.of_nat (length (ser_bytes
                (sink_stack_msg E stack msg))) ≤ uint32_max)%N)
      as [Hfit|Hbig].
    + rewrite write_payload_run by done. simpl. split.
      * split; [done|].
        intros [|(rcv' & [= <-] & [|[_ Hlong]])]; [done|congruence|].
        unfold too_long in Hlong. lia.
      * intros sent s' [= <- <-]. exists rcv. split; [done|].
        split; [by eexists|done].
    + rewrite write_payload_overflow by lia. simpl. split; [|done].
      split; [|done]. intros _. right. exists rcv. split; [done|].
      right. split; [by eexists|]. unfold too_long. lia.
  - split.
    + split; [done|].
      intros [|(rcv' & [= <-] & [|[[? ?] _]])]; [done|congruence|congruence].
    + intros sent s' [= <- <-]. exists rcv. split; [done|].
      split; [done|]. intros [? ?]. congruence.
Qed.

(** ** Frames written on one node and read on another *)

(** The two calls of the stream handler for a frame with a payload: the
    header is held back until the payload has come in. *)
Lemma header_then_payload E h hb (p : buffer_type) acc hdr s :
  bd_header E hb acc = (hdr, false) →
  valid E hdr = true →
  payload_len hdr = N.of_nat (length p) →
  p ≠ [] →
  handle E (NewDataMsg h hb) acc false s = Some ((await_payload, hdr), s)
  ∧ complete_frame E (NewDataMsg h p) hdr true = Some (hdr, Some p).
Proof.
  intros Hbd Hvalid Hlen Hp. split.
  - unfold handle. simpl. rewrite Hbd, Hvalid. simpl.
    assert ((0 <? payload_len hdr)%N = true) as ->; [|done].
    apply N.ltb_lt. rewrite Hlen. destruct p; simpl; [done|lia].
  - unfold complete_frame. simpl. by rewrite bool_decide_true.
Qed.

(** X16 -- a message sent with [dispatch] arrives.  When the codec reads
    back what it writes, the frame [dispatch] puts on the route's buffer,
    fed to the stream handler of the receiver's node header first and
    payload second, first gives [await_payload] and then hands the
    callee there the same forwarding stack, message and message id, from
    the sender's node and actor (this node and [invalid_actor_id] for a
    null sender) to the receiver's actor id. *)
Theorem dispatch_round_trip E sender stack rcv mid msg sa path sb h acc rest :
  actor_node rcv ≠ this_node_ sa →
  routing.lookup (tbl_ sa) (actor_node rcv) = Some path →
  this_node_ sb = actor_node rcv →
  let payload := ser_bytes (sink_stack_msg E stack msg) in
  let src_node :=
    match sender with Some a => actor_node a | None => this_node_ sa end in
  let src_aid :=
    match sender with Some a => actor_aid a | None => invalid_actor_id end in
  let hdr := Header dispatch_message 0 (N.of_nat (length payload))
                    (integer_value mid) src_node (actor_node rcv)
                    src_aid (actor_aid rcv) in
  (N.of_nat (length payload) ≤ uint32_max)%N →
  payload ≠ [] →
  length (ser_bytes (bs_header E hdr)) = header_size E →
  bd_header E (ser_bytes (bs_header E hdr)) acc = (hdr, false) →
  valid E hdr = true →
  bd_stack_msg E payload = Some (stack, msg, rest) →
  ∃ sa',
    dispatch E sender stack (Some rcv) mid msg sa = Some (true, sa')
    ∧ wr_buf sa' (hdl path) =
        wr_buf sa (hdl path) ++ ser_bytes (bs_header E hdr) ++ payload
    ∧ handle E (NewDataMsg h (ser_bytes (bs_header E hdr))) acc false sb
        = Some ((await_payload, hdr), sb)
    ∧ handle E (NewDataMsg h payload) hdr true sb
        = Some ((await_header, hdr),
                add_log [Callee (callee.deliver src_node src_aid
                                   (actor_aid rcv) mid stack msg)] sb).
Proof.
  intros Hremote Hroute Hhere payload src_node src_aid hdr
    Hfit Hsome Hwidth Hbd Hvalid Hmsg.
  destruct (header_then_payload E h _ payload acc hdr sb Hbd Hvalid)
    as [Hfirst Hframe]; [done|done|].
  eexists. split_and!.
  - unfold dispatch. run. rewrite bool_decide_true by done.
    rewrite Hroute, write_payload_run by done. reflexivity.
  - autorewrite with state. fold payload hdr.
    by rewrite patched_fixed_width.
  - exact Hfirst.
  - rewrite (handle_local _ _ _ _ _ _ _ Hframe)
      by by apply addressed_not_forwarded.
    simpl. unfold handle_dispatch_message.
    rewrite (complete_frame_payload_valid _ _ _ _ _ _ Hframe). simpl.
    rewrite Hmsg. by destruct mid.
Qed.

Lemma dispatch_round_trip_witness :
  ∃ sa',
    dispatch wire.codec (Some demo.worker) [] (Some demo.peer)
             (from_integer_value 17) demo.note demo.routed2
      = Some (true, sa')
    ∧ wr_buf sa' (conn_hdl 8%N)
      = [x02; x00; x03; x11; x02; x0d; x03; x09] ++ demo.parcel
    ∧ handle wire.codec (NewDataMsg 4%N demo.parcel)
             (Header dispatch_message 0 3 17 demo.this_node demo.n2 3%N 9%N)
             true sample.remote
      = Some ((await_header,
               Header dispatch_message 0 3 17 demo.this_node demo.n2 3%N 9%N),
              add_log [Callee (callee.deliver demo.this_node 3%N 9%N
                                 (from_integer_value 17) [] demo.note)]
                      sample.remote).
Proof.
  destruct (dispatch_round_trip wire.codec (Some demo.worker) [] demo.peer
              (from_integer_value 17) demo.note demo.routed2
              (Endpoint (conn_hdl 8%N) demo.n2) sample.remote 4%N demo.blank
              [])
    as (sa' & Hsent & Hbuf & _ & Hpayload);
    [discriminate | reflexivity | reflexivity | vm_compute; discriminate
    | discriminate | reflexivity | reflexivity | reflexivity | reflexivity |].
  exists sa'. split_and!; [exact Hsent | exact Hbuf | exact Hpayload].
Defined.

(** X17 -- a server handshake arrives.  When the codec reads back what it
    writes, the frame [write_server_handshake] produces on a node, fed to
    the stream handler of another node that has no direct route to the
    first, header first and payload second, makes that node bind the
    writer's node to the handle and finalize the handshake with the actor
    id and the interfaces published on the port (with [invalid_actor_id]
    and no interfaces when nothing is published there). *)
Theorem server_handshake_round_trip
    E sa b port sb h acc rest rest' :
  let pa := p ← port; find_port p (published_actors_ sa) in
  let aid := match pa with
             | Some pa => id_or_invalid pa.1
             | None => invalid_actor_id
             end in
  let sigs := match pa with Some pa => pa.2 | None => ∅ end in
  let payload := ser_bytes (handshake_writer E pa) in
  let hdr := Header server_handshake 0 (N.of_nat (length payload)) (version E)
                    (this_node_ sa) none aid invalid_actor_id in
  this_node_ sa ≠ this_node_ sb →
  routing.lookup_hdl (tbl_ sb) (this_node_ sa) = None →
  (N.of_nat (length payload) ≤ uint32_max)%N →
  (N.of_nat (length (ser_bytes (sink_string E (middleman_app_identifier E))))
   ≤ uint32_max)%N →
  payload ≠ [] →
  length (ser_bytes (bs_header E hdr)) = header_size E →
  bd_header E (ser_bytes (bs_header E hdr)) acc = (hdr, false) →
  valid E hdr = true →
  bd_string E payload = Some (middleman_app_identifier E, rest) →
  bd_aid_sigs E rest = Some (aid, sigs, rest') →
  ∃ sb',
    write_server_handshake E sa b port
      = Some (b ++ ser_bytes (bs_header E hdr) ++ payload)
    ∧ handle E (NewDataMsg h (ser_bytes (bs_header E hdr))) acc false sb
        = Some ((await_payload, hdr), sb)
    ∧ handle E (NewDataMsg h payload) hdr true sb
        = Some ((await_header, hdr), sb')
    ∧ routing.lookup (tbl_ sb') (this_node_ sa)
        = Some (Endpoint (conn_hdl h) (this_node_ sa))
    ∧ log sb' = log sb ++
        [Callee (callee.learned_new_node_directly (this_node_ sa));
         Callee (callee.finalize_handshake (this_node_ sa) aid sigs);
         Flush (conn_hdl h)].
Proof.
  intros pa aid sigs payload hdr Hother Hfresh Hfit Hfit' Hsome Hwidth
    Hbd Hvalid Happ Hsigs.
  destruct (header_then_payload E h _ payload acc hdr sb Hbd Hvalid)
    as [Hfirst Hframe]; [done|done|].
  assert (published_id pa = aid) as Haid.
  { unfold aid, published_id, id_or_invalid.
    by destruct pa as [[[a|] ifs]|]. }
  assert (handle E (NewDataMsg h payload) hdr true sb
          = Some ((await_header, hdr),
                  add_log [Flush (conn_hdl h)]
                    (add_log [Callee (callee.finalize_handshake
                                        (this_node_ sa) aid sigs)]
                       (add_log [Callee (callee.learned_new_node_directly
                                           (this_node_ sa))]
                          (set_wr_buf (conn_hdl h)
                             (wr_buf sb (conn_hdl h) ++
                              patched E
                                (Header client_handshake 0
                                   (N.of_nat (length (ser_bytes (sink_string E
                                      (middleman_app_identifier E))))) 0
                                   (this_node_ sb) (this_node_ sa)
                                   invalid_actor_id invalid_actor_id) ++
                              ser_bytes (sink_string E
                                           (middleman_app_identifier E)))
                             (set_tbl (routing.add (tbl_ sb) (conn_hdl h)
                                         (this_node_ sa)) sb))))))
    as Hsecond.
  { rewrite (handle_local _ _ _ _ _ _ _ Hframe)
      by by apply handshake_not_forwarded.
    simpl. unfold handle_server_handshake.
    rewrite (complete_frame_payload_valid _ _ _ _ _ _ Hframe), Happ.
    rewrite bool_decide_false by naive_solver. rewrite Hsigs.
    unfold mbind at 1, M_bind at 1, get. simpl.
    rewrite bool_decide_false by done. rewrite Hfresh.
    unfold mbind at 1, M_bind at 1, modify.
    unfold mbind at 1, M_bind at 1, get. simpl.
    rewrite lookup_add.
    unfold mbind at 1, M_bind at 1. unfold on_wr_buf at 1.
    rewrite write_client_handshake_run by done. run. reflexivity. }
  eexists. split_and!; [|exact Hfirst|exact Hsecond| |].
  - unfold write_server_handshake. fold pa. rewrite Haid.
    rewrite write_payload_run by done. simpl. fold payload hdr.
    by rewrite patched_fixed_width.
  - apply lookup_add.
  - simpl. by rewrite <-!app_assoc.
Qed.

Lemma server_handshake_round_trip_witness :
  ∃ sb',
    write_server_handshake wire.codec demo.publishing [] (Some 80%N)
      = Some ([x00; x00; x06; x01; x02; x00; x03; x00]
              ++ demo.greeting ++ [x03])
    ∧ handle wire.codec (NewDataMsg 4%N (demo.greeting ++ [x03]))
             (Header server_handshake 0 6 1 demo.this_node none 3%N
                     invalid_actor_id)
             true sample.remote
      = Some ((await_header,
               Header server_handshake 0 6 1 demo.this_node none 3%N
                      invalid_actor_id),
              sb')
    ∧ routing.lookup (tbl_ sb') demo.this_node
      = Some (Endpoint (conn_hdl 4%N) demo.this_node)
    ∧ log sb' =
        [Callee (callee.learned_new_node_directly demo.this_node);
         Callee (callee.finalize_handshake demo.this_node 3%N ∅);
         Flush (conn_hdl 4%N)].
Proof.
  destruct (server_handshake_round_trip wire.codec demo.publishing []
              (Some 80%N) sample.remote 4%N demo.blank [x03] [])
    as (sb' & Hwrite & _ & Hpayload & Hroute & Hlog);
    [discriminate | reflexivity | vm_compute; discriminate
    | vm_compute; discriminate | discriminate | reflexivity | reflexivity
    | reflexivity | reflexivity | reflexivity |].
  exists sb'.
  split_and!; [exact Hwrite | exact Hpayload | exact Hroute | exact Hlog].
Defined.

(** X18 -- the answer to a server handshake arrives.  When the codec
    reads back what it writes, the frame [write_client_handshake]
    produces on a node, fed to the stream handler of the addressed node,
    header first and payload second, makes that node bind the writer's
    node to the handle, unless it has a direct route to it already. *)
Theorem client_handshake_round_trip E sa b sb h acc rest :
  let payload := ser_bytes (sink_string E (middleman_app_identifier E)) in
  let hdr := Header client_handshake 0 (N.of_nat (length payload)) 0
                    (this_node_ sa) (this_node_ sb)
                    invalid_actor_id invalid_actor_id in
  routing.lookup_hdl (tbl_ sb) (this_node_ sa) = None →
  (N.of_nat (length payload) ≤ uint32_max)%N →
  payload ≠ [] →
  length (ser_bytes (bs_header E hdr)) = header_size E →
  bd_header E (ser_bytes (bs_header E hdr)) acc = (hdr, false) →
  valid E hdr = true →
  bd_string E payload = Some (middleman_app_identifier E, rest) →
  ∃ sb',
    write_client_handshake E sa b (this_node_ sb)
      = Some (b ++ ser_bytes (bs_header E hdr) ++ payload)
    ∧ handle E (NewDataMsg h (ser_bytes (bs_header E hdr))) acc false sb
        = Some ((await_payload, hdr), sb)
    ∧ handle E (NewDataMsg h payload) hdr true sb
        = Some ((await_header, hdr), sb')
    ∧ routing.lookup (tbl_ sb') (this_node_ sa)
        = Some (Endpoint (conn_hdl h) (this_node_ sa))
    ∧ log sb' = log sb ++
        [Callee (callee.learned_new_node_directly (this_node_ sa))]
    ∧ wr_bufs sb' = wr_bufs sb.
Proof.
  intros payload hdr Hfresh Hfit Hsome Hwidth Hbd Hvalid Happ.
  destruct (header_then_payload E h _ payload acc hdr sb Hbd Hvalid)
    as [Hfirst Hframe]; [done|done|].
  eexists. split_and!.
  - rewrite write_client_handshake_run by exact Hfit. fold payload hdr.
    by rewrite patched_fixed_width.
  - exact Hfirst.
  - by apply (client_handshake_adds_route E _ _ true _ payload rest).
  - apply lookup_add.
  - done.
  - done.
Qed.

Lemma client_handshake_round_trip_witness :
  ∃ sb',
    write_client_handshake wire.codec demo.fresh [] demo.n2
      = Some ([x01; x00; x05; x00; x02; x0d; x00; x00] ++ demo.greeting)
    ∧ handle wire.codec (NewDataMsg 4%N demo.greeting)
             (Header client_handshake 0 5 0 demo.this_node demo.n2
                     invalid_actor_id invalid_actor_id)
             true sample.remote
      = Some ((await_header,
               Header client_handshake 0 5 0 demo.this_node demo.n2
                      invalid_actor_id invalid_actor_id),
              sb')
    ∧ routing.lookup (tbl_ sb') demo.this_node
      = Some (Endpoint (conn_hdl 4%N) demo.this_node)
    ∧ log sb' = [Callee (callee.learned_new_node_directly demo.this_node)].
Proof.
  destruct (client_handshake_round_trip wire.codec demo.fresh [] sample.remote
              4%N demo.blank [])
    as (sb' & Hwrite & _ & Hpayload & Hroute & Hlog & _);
    [reflexivity | vm_compute; discriminate | discriminate | reflexivity
    | reflexivity | reflexivity | reflexivity |].
  exists sb'.
  split_and!; [exact Hwrite | exact Hpayload | exact Hroute | exact Hlog].
Defined.

(** ** Heartbeats to the direct peers *)

Lemma write_heartbeat_run E s b n :
  write_heartbeat E s b n =
    Some (b ++ ser_bytes (bs_header E
            (Header heartbeat 0 0 0 (this_node_ s) n invalid_actor_id
                    invalid_actor_id))).
Proof. done. Qed.

Lemma heartbeat_loop E (peers : list (endpoint_handle * node_id)) s :
  NoDup peers.*1 →
  ∃ s',
    foldr (λ kvp rest,
             s' ← get;
             on_wr_buf kvp.1 (λ b, write_heartbeat E s' b kvp.2);;
             modify (add_log [Flush kvp.1]);;
             rest)
          (mret ()) peers s = Some ((), s')
    ∧ (∀ h n, (h, n) ∈ peers →
              wr_buf s' h = wr_buf s h ++ ser_bytes (bs_header E
                (Header heartbeat 0 0 0 (this_node_ s) n invalid_actor_id
                        invalid_actor_id)))
    ∧ (∀ h, h ∉ peers.*1 → wr_buf s' h = wr_buf s h)
    ∧ log s' = log s ++ (Flush <$> peers.*1)
    ∧ tbl_ s' = tbl_ s
    ∧ this_node_ s' = this_node_ s
    ∧ published_actors_ s' = published_actors_ s.
Proof.
  revert s. induction peers as [|[h n] peers IH]; intros s Hnodup.
  - exists s. simpl. split_and!; try done.
    + intros h n Hin. by apply elem_of_nil in Hin.
    + by rewrite app_nil_r.
  - apply NoDup_cons in Hnodup as [Hh Hnodup]. simpl.
    unfold mbind at 1, M_bind at 1, get.
    unfold mbind at 1, M_bind at 1, on_wr_buf at 1.
    rewrite write_heartbeat_run. simpl.
    unfold mbind at 1, M_bind at 1, modify at 1.
    set (s1 := add_log [Flush h] (set_wr_buf h _ s)).
    destruct (IH s1 Hnodup)
      as (s' & Hrun & Hpeers & Hothers & Hlog & Htbl & Hnode & Hpub).
    exists s'. split; [exact Hrun|]. split_and!.
    + intros h' n' [[= -> ->]|Hin]%elem_of_cons.
      * rewrite Hothers by done. unfold s1. by autorewrite with state.
      * rewrite (Hpeers _ _ Hin). unfold s1. simpl.
        assert (h ≠ h') as Hne.
        { intros ->. apply Hh. apply list_elem_of_fmap. by exists (h', n'). }
        by autorewrite with state.
    + intros h' [Hne Hnot]%not_elem_of_cons.
      rewrite Hothers by done. unfold s1. by autorewrite with state.
    + rewrite Hlog. unfold s1. simpl. by rewrite <-app_assoc.
    + by rewrite Htbl.
    + by rewrite Hnode.
    + by rewrite Hpub.
Qed.

(** X19 -- [handle_heartbeat(ctx)] reaches every direct peer once: the
    write buffer of each handle in the table gets a heartbeat header from
    this node to the node bound to that handle appended, and each of
    these handles is flushed once; buffers of other handles, the routing
    table and the published actors stay as they are, the callee is not
    called, and the call never fails. *)
Theorem heartbeat_to_every_peer E s :
  ∃ s',
    handle_heartbeat E s = Some ((), s')
    ∧ (∀ h n, direct_by_hdl_ (tbl_ s) !! h = Some n →
              wr_buf s' h = wr_buf s h ++ ser_bytes (bs_header E
                (Header heartbeat 0 0 0 (this_node_ s) n invalid_actor_id
                        invalid_actor_id)))
    ∧ (∀ h, direct_by_hdl_ (tbl_ s) !! h = None → wr_buf s' h = wr_buf s h)
    ∧ (∃ flushed, log s' = log s ++ (Flush <$> flushed)
                  ∧ NoDup flushed
                  ∧ ∀ h, h ∈ flushed ↔ is_Some (direct_by_hdl_ (tbl_ s) !! h))
    ∧ tbl_ s' = tbl_ s
    ∧ published_actors_ s' = published_actors_ s.
Proof.
  unfold handle_heartbeat. unfold mbind at 1, M_bind at 1, get.
  destruct (heartbeat_loop E (map_to_list (direct_by_hdl_ (tbl_ s))) s)
    as (s' & Hrun & Hpeers & Hothers & Hlog & Htbl & _ & Hpub).
  { apply NoDup_fst_map_to_list. }
  exists s'. split; [exact Hrun|]. split_and!; try done.
  - intros h n Hh. apply Hpeers. by apply elem_of_map_to_list.
  - intros h Hh. apply Hothers. intros (kv & -> & Hin)%list_elem_of_fmap.
    destruct kv as [h n]. apply elem_of_map_to_list in Hin. simpl in Hh.
    congruence.
  - eexists. split; [exact Hlog|]. split.
    + apply NoDup_fst_map_to_list.
    + intros h. split.
      * intros ([h' n] & -> & Hin)%list_elem_of_fmap.
        apply elem_of_map_to_list in Hin. by eexists.
      * intros [n Hn]. apply list_elem_of_fmap. exists (h, n).
        split; [done|]. by apply elem_of_map_to_list.
Qed.

(** ** More on the published-actors map *)

Lemma find_port_assign_eq port pa (pas : list (N * published_actor)) :
  find_port port (assign_port port pa pas) = Some pa.
Proof.
  induction pas as [|[p old] rest IH]; simpl.
  - by rewrite decide_True.
  - destruct (decide (p = port)) as [->|Hne]; simpl.
    + by rewrite decide_True.
    + by rewrite decide_False.
Qed.

Lemma find_port_assign_ne port q pa (pas : list (N * published_actor)) :
  q ≠ port → find_port q (assign_port port pa pas) = find_port q pas.
Proof.
  intros Hq. induction pas as [|[p old] rest IH]; simpl.
  - by rewrite decide_False.
  - destruct (decide (p = port)) as [->|Hne]; simpl.
    + case_decide; [congruence|done].
    + by rewrite IH.
Qed.

Lemma assign_port_keys_in port pa (pas : list (N * published_actor)) :
  port ∈ pas.*1 → (assign_port port pa pas).*1 = pas.*1.
Proof.
  induction pas as [|[p old] rest IH]; simpl.
  - intros Hin. by apply elem_of_nil in Hin.
  - intros Hin. destruct (decide (p = port)) as [->|Hne]; simpl; [done|].
    f_equal. apply IH.
    apply elem_of_cons in Hin as [?|?]; [congruence|done].
Qed.

Lemma assign_port_keys_notin port pa (pas : list (N * published_actor)) :
  port ∉ pas.*1 → (assign_port port pa pas).*1 = pas.*1 ++ [port].
Proof.
  induction pas as [|[p old] rest IH]; simpl; [done|].
  intros [Hne Hnot]%not_elem_of_cons.
  rewrite decide_False by done. simpl. f_equal. by apply IH.
Qed.

Lemma find_port_present port (pas : list (N * published_actor)) :
  is_Some (find_port port pas) ↔ port ∈ pas.*1.
Proof.
  induction pas as [|[p pa] rest IH]; simpl.
  - split; [by intros [? ?]|]. intros Hin. by apply elem_of_nil in Hin.
  - destruct (decide (p = port)) as [->|Hne].
    + split; [intros _; left|by eexists].
    + rewrite IH. split; [by right|].
      intros [?|?]%elem_of_cons; [congruence|done].
Qed.

Lemma erase_port_length port (pas : list (N * published_actor)) :
  is_Some (find_port port pas) →
  S (length (erase_port port pas)) = length pas.
Proof.
  induction pas as [|[p pa] rest IH]; simpl.
  - by intros [? ?].
  - destruct (decide (p = port)) as [->|Hne]; [done|].
    intros Hin. simpl. by rewrite IH.
Qed.

Lemma erase_port_sublist port (pas : list (N * published_actor)) :
  erase_port port pas `sublist_of` pas.
Proof.
  induction pas as [|[p pa] rest IH]; simpl; [done|].
  destruct (decide (p = port)); [by apply sublist_cons|by apply sublist_skip].
Qed.

Lemma erase_port_nodup port (pas : list (N * published_actor)) :
  NoDup pas.*1 → NoDup (erase_port port pas).*1.
Proof.
  intros Hnodup. eapply sublist_NoDup; [exact Hnodup|].
  apply fmap_sublist, erase_port_sublist.
Qed.

Lemma add_published_actor_run port whom ifs s :
  add_published_actor port whom ifs s =
    Some ((), add_log [Notify (hook.actor_published whom ifs port)]
                (set_published
                   (assign_port port (whom, ifs) (published_actors_ s)) s))
  ∧ (NoDup (published_actors_ s).*1 →
     NoDup (assign_port port (whom, ifs) (published_actors_ s)).*1).
Proof.
  split; [done|]. intros Hnodup.
  destruct (decide (port ∈ (published_actors_ s).*1)) as [Hin|Hnot].
  - by rewrite assign_port_keys_in.
  - rewrite assign_port_keys_notin by done.
    apply NoDup_app. split_and!; [done| |apply NoDup_singleton].
    intros q Hq ->%list_elem_of_singleton. done.
Qed.

(** X20 -- [add_published_actor] publishes on one port only: afterwards
    the port holds the actor and the interfaces passed in, replacing what
    was published there before, every other port holds what it held, the
    map still has one row per port (one more row exactly when the port
    was free), and [actor_published] is emitted. *)
Theorem add_published_actor_spec port whom ifs s :
  ∃ s',
    add_published_actor port whom ifs s = Some ((), s')
    ∧ find_port port (published_actors_ s') = Some (whom, ifs)
    ∧ (∀ q, q ≠ port →
            find_port q (published_actors_ s')
            = find_port q (published_actors_ s))
    ∧ (NoDup (published_actors_ s).*1 → NoDup (published_actors_ s').*1)
    ∧ length (published_actors_ s') =
        (if find_port port (published_actors_ s) is Some _
         then length (published_actors_ s)
         else S (length (published_actors_ s)))
    ∧ log s' = log s ++ [Notify (hook.actor_published whom ifs port)]
    ∧ tbl_ s' = tbl_ s
    ∧ wr_bufs s' = wr_bufs s.
Proof.
  unfold add_published_actor. run. eexists. split; [reflexivity|]. simpl.
  split_and!; try done.
  - apply find_port_assign_eq.
  - intros q Hq. by apply find_port_assign_ne.
  - intros Hnodup.
    destruct (decide (port ∈ (published_actors_ s).*1)) as [Hin|Hnot].
    + by rewrite assign_port_keys_in.
    + rewrite assign_port_keys_notin by done.
      apply NoDup_app. split_and!; [done| |apply NoDup_singleton].
      intros q Hq ->%list_elem_of_singleton. done.
  - rewrite <-(length_fmap fst), <-(length_fmap fst (published_actors_ s)).
    destruct (find_port port (published_actors_ s)) as [pa|] eqn:Hfind.
    + rewrite assign_port_keys_in; [done|].
      apply find_port_present. by eexists.
    + rewrite assign_port_keys_notin.
      * rewrite length_app. simpl. lia.
      * intros Hin%find_port_present. rewrite Hfind in Hin.
        by destruct Hin.
Qed.

(** X21 -- [remove_published_actor(port, cb)].  For a port nothing is
    published on it returns 0, calls nothing and changes nothing.
    Otherwise it returns 1, calls a supplied [cb] once with the actor and
    the port of the row, and removes that row and no other; in a map with
    one row per port the port is free afterwards. *)
Theorem remove_published_port_spec port cb s :
  (find_port port (published_actors_ s) = None →
   remove_published_port port cb s = Some (0, s))
  ∧ (∀ pa, find_port port (published_actors_ s) = Some pa →
     ∃ s',
       remove_published_port port cb s = Some (1, s')
       ∧ log s' = log s ++ (if cb then [Removed pa.1 port] else [])
       ∧ (∀ q, q ≠ port →
               find_port q (published_actors_ s')
               = find_port q (published_actors_ s))
       ∧ S (length (published_actors_ s')) = length (published_actors_ s)
       ∧ (NoDup (published_actors_ s).*1 →
          find_port port (published_actors_ s') = None
          ∧ NoDup (published_actors_ s').*1)).
Proof.
  unfold remove_published_port. run. split.
  - by intros ->.
  - intros pa Hfind. rewrite Hfind. run.
    eexists. split; [reflexivity|]. simpl.
    split_and!; try done.
    + intros q Hq. by apply find_port_erase_ne.
    + apply erase_port_length. by eexists.
    + intros Hnodup. split; [by apply find_port_erase_eq|].
      by apply erase_port_nodup.
Qed.

(** X22 -- unpublishing undoes publishing, but does not bring back what
    the port held before.  After [add_published_actor] on a port,
    [remove_published_actor(port, cb)] returns 1, calls [cb] with the
    actor just published and the port, and leaves the port free and every
    other port as it was before the two calls. *)
Theorem publish_then_unpublish port whom ifs cb s s1 :
  NoDup (published_actors_ s).*1 →
  add_published_actor port whom ifs s = Some ((), s1) →
  ∃ s2,
    remove_published_port port cb s1 = Some (1, s2)
    ∧ find_port port (published_actors_ s2) = None
    ∧ (∀ q, q ≠ port →
            find_port q (published_actors_ s2)
            = find_port q (published_actors_ s))
    ∧ NoDup (published_actors_ s2).*1
    ∧ log s2 = log s ++
        Notify (hook.actor_published whom ifs port)
        :: (if cb then [Removed whom port] else []).
Proof.
  intros Hnodup Hadd.
  destruct (add_published_actor_run port whom ifs s) as (Hrun & Hnodup1).
  rewrite Hrun in Hadd. injection Hadd as <-.
  specialize (Hnodup1 Hnodup).
  unfold remove_published_port. run.
  rewrite find_port_assign_eq. run.
  eexists. split; [reflexivity|]. simpl. split_and!.
  - by apply find_port_erase_eq.
  - intros q Hq. rewrite find_port_erase_ne by done.
    by apply find_port_assign_ne.
  - by apply erase_port_nodup.
  - by rewrite <-app_assoc.
Qed.

Lemma publishing_nodup : NoDup (published_actors_ demo.publishing).*1.
Proof. apply (bool_decide_unpack _). vm_compute. exact I. Defined.

Lemma publish_then_unpublish_witness :
  ∃ s1 s2,
    add_published_actor 90 (Some demo.helper) ∅ demo.publishing
      = Some ((), s1)
    ∧ remove_published_port 90 true s1 = Some (1, s2)
    ∧ find_port 90 (published_actors_ s2) = None
    ∧ find_port 80 (published_actors_ s2) = Some (Some demo.worker, ∅)
    ∧ log s2 = [Notify (hook.actor_published (Some demo.helper) ∅ 90);
                Removed (Some demo.helper) 90].
Proof.
  eexists.
  destruct (publish_then_unpublish 90 (Some demo.helper) ∅ true
              demo.publishing _ publishing_nodup eq_refl)
    as (s2 & Hrun & Hgone & Hothers & _ & Hlog).
  exists s2. split_and!; [reflexivity | exact Hrun | exact Hgone | | exact Hlog].
  rewrite Hothers by discriminate. reflexivity.
Defined.

Lemma filter_other_actors whom (pas : list (N * published_actor)) :
  filter (λ row, row.2.1 = whom) (filter (λ row, row.2.1 ≠ whom) pas) = [].
Proof.
  induction pas as [|row rest IH]; [done|].
  rewrite filter_cons. case_decide as Hrow; [|done].
  rewrite filter_cons. by case_decide.
Qed.

Lemma filter_other_actors_twice whom (pas : list (N * published_actor)) :
  filter (λ row, row.2.1 ≠ whom) (filter (λ row, row.2.1 ≠ whom) pas)
  = filter (λ row, row.2.1 ≠ whom) pas.
Proof.
  induction pas as [|row rest IH]; [done|].
  rewrite filter_cons. case_decide as Hrow; [|done].
  rewrite filter_cons. case_decide; [|done]. f_equal. exact IH.
Qed.

Lemma filter_actor_split whom (pas : list (N * published_actor)) :
  length (filter (λ row, row.2.1 ≠ whom) pas)
  + length (filter (λ row, row.2.1 = whom) pas)
  = length pas.
Proof.
  induction pas as [|row rest IH]; [done|].
  rewrite !filter_cons. repeat case_decide; try done; simpl.
  - f_equal. exact IH.
  - rewrite Nat.add_succ_r. f_equal. exact IH.
Qed.

(** X23 -- [remove_published_actor(whom, 0, cb)] finishes the job in one
    call: afterwards no row names [whom], and a second call, with or
    without a callback, returns 0, calls nothing and changes nothing. *)
Theorem remove_published_actor_twice whom cb cb' s k s1 :
  remove_published_actor whom 0 cb s = Some (k, s1) →
  Forall (λ row, row.2.1 ≠ whom) (published_actors_ s1)
  ∧ k ≤ length (published_actors_ s)
  ∧ length (published_actors_ s1) + k = length (published_actors_ s)
  ∧ remove_published_actor whom 0 cb' s1 = Some (0, s1).
Proof.
  unfold remove_published_actor. run.
  rewrite remove_loop_filter. run. intros [= <- <-]. simpl.
  split_and!.
  - apply Forall_forall. by intros row [Hrow _]%list_elem_of_filter.
  - eapply Nat.le_trans; [apply Nat.le_add_l|].
    apply Nat.eq_le_incl.
    exact (filter_actor_split whom (published_actors_ s)).
  - exact (filter_actor_split whom (published_actors_ s)).
  - rewrite remove_loop_filter.
    rewrite filter_other_actors, filter_other_actors_twice. run.
    destruct s. unfold add_log, set_published. simpl.
    destruct cb'; by rewrite app_nil_r.
Qed.

Lemma remove_published_actor_twice_witness :
  ∃ s1,
    remove_published_actor (Some demo.worker) 0 true demo.publishing
      = Some (2, s1)
    ∧ length (published_actors_ s1) + 2 = 3
    ∧ remove_published_actor (Some demo.worker) 0 true s1 = Some (0, s1).
Proof.
  eexists.
  destruct (remove_published_actor_twice (Some demo.worker) true true
              demo.publishing 2 _ eq_refl)
    as (_ & _ & Hcount & Hagain).
  split_and!; [reflexivity | exact Hcount | exact Hagain].
Defined.

(** ** The datagram handler *)

Lemma bind_run {A B} (m : M A) (k : A → M B) s :
  (m ≫= k) s = match m s with Some (a, s') => k a s' | None => None end.
Proof. reflexivity. Qed.

Lemma dgram_err_run dm s :
  dgram_err dm s = Some (false, dgram_closed (dgram_handle_of dm) s).
Proof. done. Qed.

Lemma read_range_run n (itr : buffer_type) s :
  n ≤ length itr → read_range n itr s = Some ((take n itr, drop n itr), s).
Proof. intros Hn. unfold read_range. by rewrite decide_True. Qed.

(** A turn of the loop on a packet that starts with a well-formed
    frame. *)
Lemma dgram_frame_run E dm packet hdr0 hdr payload rest s :
  first_frame E packet hdr0 = Some (hdr, payload, rest) →
  dgram_frame E dm packet hdr0 s =
    match
      (if needs_forwarding s hdr then dgram_err dm
       else dgram_switch E dm hdr payload) s
    with
    | Some (ok, s') => Some ((ok, hdr, rest), s')
    | None => None
    end.
Proof.
  unfold first_frame, dgram_frame. case_decide as Hhdr; [|done].
  unfold mbind at 1, M_bind at 1. rewrite read_range_run by done.
  destruct (bd_header E (take (header_size E) packet) hdr0) as [hdr' e].
  destruct e; [done|]. destruct (valid E hdr'); [|done]. simpl.
  case_bool_decide as Hlen; [|done]. intros [= <- <- <-].
  unfold mbind at 1, M_bind at 1. rewrite read_range_run by done.
  unfold mbind at 1, M_bind at 1, get.
  destruct (needs_forwarding s hdr'); run; [reflexivity|].
  by destruct (dgram_switch E dm hdr' _ s) as [[? ?]|].
Qed.

Lemma first_frame_payload E packet hdr0 hdr p rest :
  first_frame E packet hdr0 = Some (hdr, Some p, rest) →
  payload_valid hdr (Some p) = Some p.
Proof.
  unfold first_frame. case_decide as Hhdr; [|done].
  destruct (bd_header E (take (header_size E) packet) hdr0) as [hdr' e].
  destruct e; [done|]. destruct (valid E hdr'); [|done]. simpl.
  case_bool_decide as Hlen; [|done].
  destruct (0 <? payload_len hdr')%N; [|done]. intros [= <- <- <-].
  unfold payload_valid. rewrite bool_decide_true; [done|].
  rewrite length_take. lia.
Qed.

Lemma dgram_frame_advances E dm itr hdr s ok hdr' itr' s' :
  0 < header_size E →
  dgram_frame E dm itr hdr s = Some ((ok, hdr', itr'), s') →
  length itr' < length itr.
Proof.
  intros Hsize. unfold dgram_frame, read_range.
  unfold mbind, M_bind, mret, M_ret, get. simpl.
  case_decide as Hhdr; [|done].
  assert (length (drop (header_size E) itr) < length itr) as Hshorter.
  { rewrite length_drop. lia. }
  destruct (bd_header E (take (header_size E) itr) hdr) as [hdr1 e].
  destruct (e || negb (valid E hdr1)).
  - by intros [= _ _ <- _].
  - case_decide as Hlen; [|done]. simpl.
    assert (length (drop (N.to_nat (payload_len hdr1))
                      (drop (header_size E) itr)) < length itr) as Hshort.
    { rewrite length_drop. lia. }
    destruct (needs_forwarding s hdr1); simpl.
    + by intros [= _ _ <- _].
    + destruct (dgram_switch E dm hdr1 _ s) as [[? ?]|]; [|done].
      by intros [= _ _ <- _].
Qed.

Lemma dgram_loop_enough E dm :
  0 < header_size E →
  ∀ fuel fuel' itr hdr s,
    length itr < fuel → length itr < fuel' →
    dgram_loop E fuel dm itr hdr s = dgram_loop E fuel' dm itr hdr s
    ∧ ∀ r hdr' s', dgram_loop E fuel dm itr hdr s = Some ((r, hdr'), s') →
                   is_Some r.
Proof.
  intros Hsize. induction fuel as [|fuel IH]; intros fuel' itr hdr s0 Hf Hf'.
  { lia. }
  destruct fuel' as [|fuel']; [lia|]. cbn [dgram_loop].
  rewrite !bind_run.
  destruct (dgram_frame E dm itr hdr s0) as [[[[ok hdr1] itr1] s1]|] eqn:Hframe;
    [|done].
  apply dgram_frame_advances in Hframe; [|done].
  destruct ok; simpl; [|split; [done|by intros ? ? ? [= <- _ _]]].
  destruct itr1 as [|c itr1]; [split; [done|by intros ? ? ? [= <- _ _]]|].
  apply IH; simpl in *; lia.
Qed.



Lemma dgram_loop_packet E fuel dm buf itr hdr s :
  dgram_loop E fuel dm itr hdr s =
  dgram_loop E fuel
    (NewDatagramMsg (dgram_handle_of dm) buf (dgram_port dm)) itr hdr s.
Proof.
  revert itr hdr s. induction fuel as [|fuel IH]; intros itr hdr s; [done|].
  cbn [dgram_loop]. rewrite !bind_run.
  change (dgram_frame E
            (NewDatagramMsg (dgram_handle_of dm) buf (dgram_port dm)) itr hdr s)
    with (dgram_frame E dm itr hdr s).
  destruct (dgram_frame E dm itr hdr s) as [[[[ok hdr1] itr1] s1]|]; [|done].
  destruct ok; simpl; [|done]. destruct itr1 as [|c itr1]; [done|].
  apply IH.
Qed.

(** X25 -- a packet is processed frame by frame.  When the packet starts
    with a well-formed frame, the handler deals with that frame; if the
    frame is turned down the answer is [false] and the rest of the packet
    is not looked at, if it was the last frame the answer is [true], and
    otherwise the answer is that of the handler on the rest of the packet,
    run on the state the first frame left behind. *)
Theorem datagram_frame_by_frame E dm hdr0 hdr payload rest s :
  0 < header_size E →
  first_frame E (dgram_buf dm) hdr0 = Some (hdr, payload, rest) →
  handle_datagram E dm hdr0 s =
    match
      (if needs_forwarding s hdr then dgram_err dm
       else dgram_switch E dm hdr payload) s
    with
    | None => None
    | Some (false, s') => Some ((Some false, hdr), s')
    | Some (true, s') =>
        match rest with
        | [] => Some ((Some true, hdr), s')
        | _ =>
            handle_datagram E
              (NewDatagramMsg (dgram_handle_of dm) rest (dgram_port dm))
              hdr s'
        end
    end.
Proof.
  intros Hsize Hfirst. unfold handle_datagram at 1. cbn [dgram_loop].
  rewrite bind_run.
  pose proof (dgram_frame_run E dm _ _ _ _ _ s Hfirst) as Hframe.
  rewrite Hframe.
  destruct ((if needs_forwarding s hdr then dgram_err dm
             else dgram_switch E dm hdr payload) s)
    as [[ok s']|] eqn:Hturn; [|done].
  destruct ok; simpl; [|done]. destruct rest as [|c rest]; [done|].
  apply dgram_frame_advances in Hframe; [|done].
  unfold handle_datagram. simpl dgram_buf.
  rewrite <-dgram_loop_packet.
  apply (dgram_loop_enough E dm Hsize); simpl in *; lia.
Qed.

Lemma datagram_frame_by_frame_witness :
  handle_datagram wire.codec sample.two_frames demo.blank demo.fresh
    = handle_datagram wire.codec (sample.packet (sample.frame sample.beat_hdr []))
        sample.announce_hdr
        (add_log [Callee (callee.proxy_announced demo.n1 9%N)] demo.fresh).
Proof.
  exact (datagram_frame_by_frame wire.codec sample.two_frames demo.blank
           sample.announce_hdr None (sample.frame sample.beat_hdr [])
           demo.fresh (Nat.lt_0_succ 7) eq_refl).
Defined.

(** X26 -- nothing is forwarded from a datagram channel.  A well-formed
    frame that is neither a handshake nor a heartbeat and is addressed to
    another node makes the handler answer [false]: the routes of the
    datagram handle are erased with [purge_state] for each node removed,
    nothing is written, delivered or notified, and the rest of the packet
    is dropped. *)
Theorem datagram_never_forwards E dm hdr0 hdr payload rest s :
  first_frame E (dgram_buf dm) hdr0 = Some (hdr, payload, rest) →
  is_handshake hdr = false →
  is_heartbeat hdr = false →
  dest_node hdr ≠ this_node_ s →
  let h := dgram_hdl (dgram_handle_of dm) in
  ∃ s',
    handle_datagram E dm hdr0 s = Some ((Some false, hdr), s')
    ∧ tbl_ s' = (routing.erase_hdl (tbl_ s) h).1
    ∧ log s' = log s ++
        (Callee ∘ callee.purge_state <$> (routing.erase_hdl (tbl_ s) h).2)
    ∧ routing.lookup_node (tbl_ s') h = none
    ∧ wr_bufs s' = wr_bufs s.
Proof.
  intros Hfirst Hhs Hhb Hdest h. unfold handle_datagram. cbn [dgram_loop].
  rewrite bind_run.
  rewrite (dgram_frame_run E dm _ _ _ _ _ s Hfirst).
  unfold needs_forwarding. rewrite Hhs, Hhb, bool_decide_true by done.
  simpl. eexists. split; [reflexivity|]. simpl. fold h.
  split_and!; try done. apply erase_hdl_unbinds.
Qed.

Lemma datagram_never_forwards_witness :
  ∃ s',
    handle_datagram wire.codec sample.stray_packet demo.blank
                    sample.dgram_routed
      = Some ((Some false, sample.stray_hdr), s')
    ∧ log s' = [Callee (callee.purge_state demo.n1)]
    ∧ routing.lookup_node (tbl_ s') (dgram_hdl 5%N) = none
    ∧ wr_bufs s' = ∅.
Proof.
  destruct (datagram_never_forwards wire.codec sample.stray_packet demo.blank
              sample.stray_hdr (Some demo.parcel) [] sample.dgram_routed)
    as (s' & Hrun & _ & Hlog & Hnode & Hbufs);
    [reflexivity | reflexivity | reflexivity | discriminate |].
  exists s'. split_and!; [exact Hrun | exact Hlog | exact Hnode | exact Hbufs].
Defined.

(** X27 -- stream handshakes are ignored on a datagram channel.  A packet
    that consists of one well-formed [server_handshake] or
    [client_handshake] frame is answered with [true] and changes
    nothing, whatever the payload of the frame is. *)
Theorem datagram_ignores_stream_handshakes E dm hdr0 hdr payload s :
  first_frame E (dgram_buf dm) hdr0 = Some (hdr, payload, []) →
  operation hdr = server_handshake ∨ operation hdr = client_handshake →
  handle_datagram E dm hdr0 s = Some ((Some true, hdr), s).
Proof.
  intros Hfirst Hop. unfold handle_datagram. cbn [dgram_loop].
  rewrite bind_run.
  rewrite (dgram_frame_run E dm _ _ _ _ _ s Hfirst).
  rewrite handshake_not_forwarded
    by (unfold is_handshake; by destruct Hop as [-> | ->]).
  unfold dgram_switch. by destruct Hop as [-> | ->].
Qed.

Lemma datagram_ignores_stream_handshakes_witness :
  handle_datagram wire.codec sample.hello_packet demo.blank demo.fresh
    = Some ((Some true, sample.hello_hdr), demo.fresh).
Proof.
  apply (datagram_ignores_stream_handshakes wire.codec sample.hello_packet
           demo.blank sample.hello_hdr (Some demo.hello) demo.fresh);
    [reflexivity | left; reflexivity].
Defined.

(** X28 -- a UDP client handshake is answered in the packet's write
    buffer.  A packet that is one well-formed [udp_client_handshake]
    frame with this application's identifier, from a node without a
    direct route, binds the node to the datagram handle, appends a
    [udp_server_handshake] addressed to that node (advertising the actor
    published on the port the packet came in on, if there is one) to the
    handle's write buffer and tells the callee
    [learned_new_node_directly].  The answer is not flushed. *)
Theorem udp_client_handshake_answered E dm hdr0 hdr p rest s :
  first_frame E (dgram_buf dm) hdr0 = Some (hdr, Some p, []) →
  operation hdr = udp_client_handshake →
  routing.lookup_hdl (tbl_ s) (source_node hdr) = None →
  bd_string E p = Some (middleman_app_identifier E, rest) →
  let pa := port ← dgram_port dm; find_port port (published_actors_ s) in
  let answer := ser_bytes (handshake_writer E pa) in
  (N.of_nat (length answer) ≤ uint32_max)%N →
  let h := dgram_hdl (dgram_handle_of dm) in
  let n := source_node hdr in
  ∃ s',
    handle_datagram E dm hdr0 s = Some ((Some true, hdr), s')
    ∧ routing.lookup (tbl_ s') n = Some (Endpoint h n)
    ∧ wr_buf s' h =
        wr_buf s h
        ++ patched E (Header udp_server_handshake 0
                        (N.of_nat (length answer)) (version E)
                        (this_node_ s) n (published_id pa) invalid_actor_id)
        ++ answer
    ∧ (∀ h', h' ≠ h → wr_buf s' h' = wr_buf s h')
    ∧ log s' = log s ++ [Callee (callee.learned_new_node_directly n)].
Proof.
  intros Hfirst Hop Hfresh Happ pa answer Hfit h n.
  unfold handle_datagram. cbn [dgram_loop]. rewrite bind_run.
  rewrite (dgram_frame_run E dm _ _ _ _ _ s Hfirst).
  rewrite handshake_not_forwarded by (unfold is_handshake; by rewrite Hop).
  unfold dgram_switch. rewrite Hop. unfold dgram_udp_client_handshake.
  rewrite bind_run. unfold get at 1. rewrite Hfresh.
  apply first_frame_payload in Hfirst as ->.
  rewrite Happ, bool_decide_false by (intros Hne; by apply Hne).
  rewrite bind_run. unfold modify at 1. rewrite bind_run. unfold get at 1.
  cbn [tbl_ set_tbl]. rewrite lookup_add. cbn [hdl].
  set (s1 := set_tbl _ s).
  assert (on_wr_buf h
            (λ b, write_udp_server_handshake E s1 b (source_node hdr)
                    (dgram_port dm)) s1
          = Some ((), set_wr_buf h
               (wr_buf s h
                ++ patched E (Header udp_server_handshake 0
                                (N.of_nat (length answer)) (version E)
                                (this_node_ s) n (published_id pa)
                                invalid_actor_id)
                ++ answer) s1)) as Hwrite.
  { unfold write_udp_server_handshake.
    by rewrite (on_wr_buf_write E h _ (handshake_writer E pa) s1 Hfit). }
  assert (∀ (k : M bool) r,
            (on_wr_buf h
               (λ b, write_udp_server_handshake E s1 b (source_node hdr)
                       (dgram_port dm));; k) s1 = r →
            (match dgram_port dm with
             | Some port =>
                 on_wr_buf h
                   (λ b, write_udp_server_handshake E s1 b (source_node hdr)
                           (Some port))
             | None =>
                 on_wr_buf h
                   (λ b, write_udp_server_handshake E s1 b (source_node hdr)
                           None)
             end;; k) s1 = r) as Hport.
  { intros k r <-. by destruct (dgram_port dm). }
  erewrite Hport; [|rewrite bind_run, Hwrite; reflexivity].
  run. eexists. split; [reflexivity|]. simpl.
  split_and!.
  - apply lookup_add.
  - unfold wr_buf. simpl. by rewrite lookup_insert_eq.
  - intros h' Hh'. unfold wr_buf. simpl. by rewrite lookup_insert_ne.
  - done.
Qed.

Lemma udp_client_handshake_answered_witness :
  ∃ s',
    handle_datagram wire.codec sample.greet_packet demo.blank demo.publishing
      = Some ((Some true, sample.udp_greet_hdr), s')
    ∧ routing.lookup (tbl_ s') demo.n1
      = Some (Endpoint (dgram_hdl 5%N) demo.n1)
    ∧ wr_buf s' (dgram_hdl 5%N)
      = [x06; x00; x06; x01; x02; x0c; x03; x00] ++ demo.greeting ++ [x03]
    ∧ log s' = [Callee (callee.learned_new_node_directly demo.n1)].
Proof.
  destruct (udp_client_handshake_answered wire.codec sample.greet_packet
              demo.blank sample.udp_greet_hdr demo.greeting []
              demo.publishing)
    as (s' & Hrun & Hroute & Hbuf & _ & Hlog);
    [reflexivity | reflexivity | reflexivity | reflexivity
    | vm_compute; discriminate |].
  exists s'. split_and!; [exact Hrun | exact Hroute | exact Hbuf | exact Hlog].
Defined.

Ltac agree :=
  unfold mbind, M_bind, mret, M_ret, call, modify; cbn [negb];
  split; [intros ?|]; split; congruence.

(** X29 -- a datagram channel delivers what a stream channel delivers.
    For a [dispatch_message], [announce_proxy], [kill_proxy] or
    [heartbeat] frame that does not have to be forwarded, carried as one
    packet on a datagram channel and as a complete frame on a stream
    channel, the two handlers agree: the stream handler goes on with
    [await_header] in a state exactly when the datagram handler answers
    [true] in that state, and it closes the connection exactly when the
    datagram handler answers [false], each with the cleanup of its own
    handle. *)
Theorem datagram_delivers_like_stream E sdm ddm hdr0 is_payload hdr payload s :
  complete_frame E sdm hdr0 is_payload = Some (hdr, payload) →
  first_frame E (dgram_buf ddm) hdr0 = Some (hdr, payload, []) →
  needs_forwarding s hdr = false →
  operation hdr ∈ [dispatch_message; announce_proxy; kill_proxy; heartbeat] →
  (∀ s', handle E sdm hdr0 is_payload s = Some ((await_header, hdr), s')
         ↔ handle_datagram E ddm hdr0 s = Some ((Some true, hdr), s'))
  ∧ (handle E sdm hdr0 is_payload s
       = Some ((close_connection, hdr), closed (conn_hdl (handle_of sdm)) s)
     ↔ handle_datagram E ddm hdr0 s
       = Some ((Some false, hdr), dgram_closed (dgram_handle_of ddm) s)).
Proof.
  intros Hstream Hdgram Hlocal Hop.
  rewrite (handle_local _ _ _ _ _ _ _ Hstream Hlocal).
  unfold handle_datagram. cbn [dgram_loop]. rewrite bind_run.
  rewrite (dgram_frame_run E ddm _ _ _ _ _ s Hdgram), Hlocal.
  unfold dgram_switch.
  assert (operation hdr = dispatch_message ∨ operation hdr = announce_proxy
          ∨ operation hdr = kill_proxy ∨ operation hdr = heartbeat)
    as [-> | [-> | [-> | ->]]]
    by (set_unfold in Hop; tauto).
  - unfold handle_dispatch_message, dgram_dispatch_message.
    destruct (payload_valid hdr payload) as [p|];
      [|rewrite err_run, dgram_err_run; agree].
    destruct (if has hdr named_receiver_flag then bd_atom E p
              else Some (0%N, p)) as [[name rest]|];
      [|rewrite err_run, dgram_err_run; agree].
    destruct (bd_stack_msg E rest) as [[[stack msg] ?]|];
      [|rewrite err_run, dgram_err_run; agree].
    destruct (has hdr named_receiver_flag); agree.
  - agree.
  - unfold handle_kill_proxy, dgram_kill_proxy.
    destruct (payload_valid hdr payload) as [p|];
      [|rewrite err_run, dgram_err_run; agree].
    destruct (bd_error E p) as [[fail_state ?]|];
      [|rewrite err_run, dgram_err_run; agree].
    agree.
  - agree.
Qed.

Lemma datagram_delivers_like_stream_witness :
  handle_datagram wire.codec sample.note_packet sample.note_hdr demo.routed
    = Some ((Some true, sample.note_hdr),
            add_log [Callee (callee.deliver demo.n1 5%N 9%N
                               (from_integer_value 17) [] demo.note)]
                    demo.routed).
Proof.
  destruct (datagram_delivers_like_stream wire.codec demo.parcel_on_7
              sample.note_packet sample.note_hdr true sample.note_hdr
              (Some demo.parcel) demo.routed)
    as [Hgoes_on _].
  - reflexivity.
  - reflexivity.
  - reflexivity.
  - apply (bool_decide_unpack _). vm_compute. exact I.
  - apply Hgoes_on. reflexivity.
Defined.

(** ** [type_list] *)

Lemma init_fills {type info : Type} (void_type : type)
    (uniform_typeid : type → info) tl :
  tl ≠ [] →
  ∀ what m_arr,
    what + length tl ≤ length m_arr →
    init void_type uniform_typeid tl what m_arr
    = Some (take what m_arr ++ (uniform_typeid <$> tl)
            ++ drop (what + length tl) m_arr).
Proof.
  induction tl as [|head tail IH]; [done|]. intros _ what m_arr Hlen.
  simpl in Hlen.
  assert (<[what:=uniform_typeid head]> m_arr
          = take what m_arr ++ uniform_typeid head :: drop (S what) m_arr)
    as Hput.
  { rewrite <-(take_drop what m_arr) at 1.
    rewrite insert_app_r_alt by (rewrite length_take; lia).
    rewrite length_take, Nat.min_l, Nat.sub_diag by lia.
    f_equal. destruct (drop what m_arr) as [|x rest] eqn:Hdrop.
    - apply (f_equal length) in Hdrop. rewrite length_drop in Hdrop.
      simpl in Hdrop. lia.
    - simpl. f_equal.
      assert (drop (S what) m_arr = drop 1 (drop what m_arr)) as ->
        by (rewrite drop_drop; f_equal; lia).
      by rewrite Hdrop. }
  destruct tail as [|next tail].
  - simpl. rewrite decide_True by lia. rewrite Hput.
    by rewrite Nat.add_1_r.
  - change (init void_type uniform_typeid (head :: next :: tail) what m_arr)
      with (if decide (what < length m_arr)
            then init void_type uniform_typeid (next :: tail) (S what)
                   (<[what:=uniform_typeid head]> m_arr)
            else None).
    rewrite decide_True by lia.
    rewrite IH by (rewrite ?length_insert; simpl in *; done || lia).
    rewrite Hput. f_equal.
    assert (take (S what)
              (take what m_arr ++ uniform_typeid head :: drop (S what) m_arr)
            = take what m_arr ++ [uniform_typeid head]) as ->.
    { rewrite take_app_ge by (rewrite length_take; lia).
      rewrite length_take, Nat.min_l by lia.
      replace (S what - what) with 1 by lia. done. }
    assert (drop (S what + length (next :: tail))
              (take what m_arr ++ uniform_typeid head :: drop (S what) m_arr)
            = drop (what + length (head :: next :: tail)) m_arr) as ->.
    { rewrite drop_app_ge by (rewrite length_take; lia).
      rewrite length_take, Nat.min_l by lia.
      replace (S what + length (next :: tail) - what)
        with (S (length (next :: tail))) by lia.
      simpl. rewrite drop_drop. f_equal. lia. }
    by rewrite <-app_assoc.
Qed.

(** X30 -- the constructor of a non-empty [type_list] fills every slot of
    [m_arr], whatever the array held before, and the recursion of [init]
    never writes behind the array: afterwards slot [i] holds
    [uniform_typeid] of the [i]-th type of the list, so [at(i)] returns it
    for every [i] below [size]. *)
Theorem type_list_at {type info : Type} (void_type : type)
    (uniform_typeid : type → info) tl m_arr :
  0 < size tl →
  length m_arr = size tl →
  ∃ filled,
    type_list void_type uniform_typeid tl m_arr = Some filled
    ∧ filled = uniform_typeid <$> tl
    ∧ ∀ pos, at_ filled pos = uniform_typeid <$> (tl !! pos).
Proof.
  unfold size. intros Hsize Hlen. exists (uniform_typeid <$> tl).
  split_and!; [|done|].
  - unfold type_list. rewrite init_fills;
      [|destruct tl; simpl in *; [lia|done]|simpl; lia].
    simpl. rewrite drop_ge by lia. by rewrite app_nil_r.
  - intros pos. unfold at_. by rewrite list_lookup_fmap.
Qed.

Lemma type_list_at_witness :
  type_list 0 S [1; 2; 3] [0; 0; 0] = Some [2; 3; 4]
  ∧ at_ [2; 3; 4] 1 = Some 3.
Proof.
  destruct (type_list_at 0 S [1; 2; 3] [0; 0; 0])
    as (filled & Hrun & -> & Hat);
    [unfold size; simpl; lia | reflexivity |].
  split; [exact Hrun | exact (Hat 1)].
Defined.
